(** * ETL workflows: watermark-driven staging load and SCD Type 2 versioning

    A shallow embedding of the two programs of the repository:

    - [SCD2/SCD2.py]: the SQL statements of [scd2_demo] (staging load,
      close-out of changed current versions, insert of new versions), as
      functions on tables;
    - [Incremental Data Load/staging.py]: the SQL statements as functions on
      a database, and the Python functions around them (execute, commit,
      try/except with logging and rollback) in a small state-and-exception
      monad over a connection.

    Tables are lists of rows in storage (insertion) order.  A nullable
    column is an [option]; SQL conditions are three-valued and a row is
    kept by WHERE / ON only when its condition is TRUE. *)

From Stdlib Require Import ZArith List String Bool Lia PeanoNat.
Import ListNotations.

Local Open Scope string_scope.
Local Open Scope Z_scope.
Local Open Scope list_scope.

(** ** SQL three-valued logic *)

Module Sql.

(** [None] is UNKNOWN (the value of a comparison with NULL). *)
Definition tv := option bool.

Definition and3 (a b : tv) : tv :=
  match a, b with
  | Some false, _ | _, Some false => Some false
  | Some true, Some true => Some true
  | _, _ => None
  end.

Definition or3 (a b : tv) : tv :=
  match a, b with
  | Some true, _ | _, Some true => Some true
  | Some false, Some false => Some false
  | _, _ => None
  end.

(** WHERE, ON and EXISTS keep a row only when the condition is TRUE. *)
Definition holds (a : tv) : bool :=
  match a with Some true => true | _ => false end.

(** [x IS NULL] is never UNKNOWN. *)
Definition is_null {A} (x : option A) : tv :=
  Some (match x with None => true | Some _ => false end).

Definition eqZ (x y : option Z) : tv :=
  match x, y with Some a, Some b => Some (a =? b) | _, _ => None end.

Definition neZ (x y : option Z) : tv :=
  match x, y with Some a, Some b => Some (negb (a =? b)) | _, _ => None end.

Definition gtZ (x y : option Z) : tv :=
  match x, y with Some a, Some b => Some (a >? b) | _, _ => None end.

(** A scalar subquery yields the column of its first row, NULL when it
    has no row. *)
Definition scalar {A} (rows : list (option A)) : option A :=
  match rows with [] => None | v :: _ => v end.

(** [EXISTS (SELECT ...)]. *)
Definition exists_ {A} (rows : list A) : tv :=
  Some (match rows with [] => false | _ :: _ => true end).

(** [MAX(col)]: NULLs are skipped; NULL when no value is left. *)
Fixpoint max_agg (vals : list (option Z)) : option Z :=
  match vals with
  | [] => None
  | None :: tl => max_agg tl
  | Some v :: tl =>
      match max_agg tl with
      | None => Some v
      | Some m => Some (Z.max v m)
      end
  end.

End Sql.

(** ** SCD2/SCD2.py *)

Module SCD2.
Import Sql.

(** [src]: [cust_id INTEGER PRIMARY KEY] is never NULL; the other columns
    are nullable. *)
Record src_row := mk_src {
  s_cust_id : Z;
  s_phone_no : option Z;
  s_created_date : option string;
  s_modified_date : option string
}.

(** [target] and [staging] share their six nullable columns. *)
Record row := mk_row {
  cust_id : option Z;
  phone_no : option Z;
  created_date : option string;
  modified_date : option string;
  start_date : option string;
  end_date : option string
}.

Definition table := list row.

Definition set_end_date (t : row) (e : option string) : row :=
  mk_row (cust_id t) (phone_no t) (created_date t) (modified_date t)
         (start_date t) e.

(** Steps 4 and 7: [INSERT INTO staging SELECT cust_id, phone_no,
    created_date, modified_date, modified_date, NULL FROM src]. *)
Definition stage (r : src_row) : row :=
  mk_row (Some (s_cust_id r)) (s_phone_no r) (s_created_date r)
         (s_modified_date r) (s_modified_date r) None.

Definition load_staging (src : list src_row) (staging : table) : table :=
  staging ++ map stage src.

(** Step 7 runs [DELETE FROM staging] first. *)
Definition delete_from (staging : table) : table := [].

Definition reload_staging (src : list src_row) (staging : table) : table :=
  load_staging src (delete_from staging).

(** The correlated condition of step 8:
    [s.cust_id = target.cust_id AND s.phone_no != target.phone_no]. *)
Definition changed (t s : row) : bool :=
  holds (and3 (eqZ (cust_id s) (cust_id t)) (neZ (phone_no s) (phone_no t))).

(** Step 8: [UPDATE target SET end_date = (SELECT s.modified_date ...)
    WHERE end_date IS NULL AND EXISTS (SELECT 1 ...)]. *)
Definition close_row (staging : table) (t : row) : row :=
  if holds (and3 (is_null (end_date t))
                 (exists_ (filter (changed t) staging)))
  then set_end_date t (scalar (map modified_date (filter (changed t) staging)))
  else t.

Definition close_out (staging target : table) : table :=
  map (close_row staging) target.

(** Steps 5 and 9.  The join condition
    [ON s.cust_id = t.cust_id AND t.end_date IS NULL]. *)
Definition join_on (s t : row) : bool :=
  holds (and3 (eqZ (cust_id s) (cust_id t)) (is_null (end_date t))).

(** [staging s LEFT JOIN target t]: the matching target rows, or one
    NULL-extended row when there is none. *)
Definition left_join (s : row) (target : table) : list (option row) :=
  match filter (join_on s) target with
  | [] => [None]
  | l => map Some l
  end.

(** A column of the right side of the join. *)
Definition col {A} (t : option row) (f : row -> option A) : option A :=
  match t with Some r => f r | None => None end.

(** [WHERE t.cust_id IS NULL OR t.phone_no != s.phone_no]. *)
Definition where_new (s : row) (t : option row) : bool :=
  holds (or3 (is_null (col t cust_id)) (neZ (col t phone_no) (phone_no s))).

(** The rows the SELECT of steps 5 and 9 yields for one staging row. *)
Definition selected (target : table) (s : row) : list row :=
  map (fun _ => s) (filter (where_new s) (left_join s target)).

Definition insert_versions (staging target : table) : table :=
  target ++ flat_map (selected target) staging.

(** Steps 8 and 9 together: the version-apply step. *)
Definition apply_versions (staging target : table) : table :=
  insert_versions staging (close_out staging target).

(** Step 6: [UPDATE src SET phone_no = 666 WHERE cust_id = 2]. *)
Definition update_src (src : list src_row) : list src_row :=
  map (fun r => if s_cust_id r =? 2
                then mk_src (s_cust_id r) (Some 666) (s_created_date r)
                            (s_modified_date r)
                else r) src.

Definition initial_data : list (Z * Z) :=
  [(1, 9876543210); (2, 9123456780); (3, 9012345678);
   (4, 9345678901); (5, 9988776655); (6, 666666)].

(** The whole demo; [now] is CURRENT_TIMESTAMP when step 3 runs.  The
    result is the final content of [target]. *)
Definition scd2_demo (now : string) : table :=
  let src := map (fun d => mk_src (fst d) (Some (snd d)) (Some now) (Some now))
                 initial_data in
  let staging := load_staging src [] in
  let target := insert_versions staging [] in
  let src := update_src src in
  let staging := reload_staging src staging in
  let target := close_out staging target in
  insert_versions staging target.

(** *** Predicates on the tables *)

Definition has_key (k : Z) (t : row) : bool :=
  match cust_id t with Some k' => k' =? k | None => false end.

(** A current version is a row whose end marker is NULL. *)
Definition is_current (t : row) : bool :=
  match end_date t with None => true | Some _ => false end.

Definition current_for (k : Z) (t : row) : bool :=
  has_key k t && is_current t.

Definition count_current (k : Z) (target : table) : nat :=
  List.length (filter (current_for k) target).

(** At most one current version per key. *)
Definition single_current (target : table) : Prop :=
  forall k, (count_current k target <= 1)%nat.

Definition same_key (s s' : row) : bool :=
  holds (eqZ (cust_id s) (cust_id s')).

(** No two rows carry the same (non-NULL) key. *)
Fixpoint distinct_keys (l : table) : bool :=
  match l with
  | [] => true
  | s :: tl => negb (existsb (same_key s) tl) && distinct_keys tl
  end.

Definition not_null {A} (x : option A) : bool :=
  match x with Some _ => true | None => false end.

(** A staging row as the staging load writes it from a source row whose
    modified timestamp is set: key and modified timestamp present, end
    marker NULL. *)
Definition staged_row (s : row) : bool :=
  not_null (cust_id s) && not_null (modified_date s) && is_current s.

(** A staging snapshot: staged rows, one per key. *)
Definition snapshot (staging : table) : bool :=
  forallb staged_row staging && distinct_keys staging.

(** The versions of key [k], in storage order. *)
Definition versions (k : Z) (target : table) : table :=
  filter (has_key k) target.

Definition leS (x y : option string) : bool :=
  match x, y with Some a, Some b => String.leb a b | _, _ => false end.

Definition eqS (x y : option string) : bool :=
  match x, y with Some a, Some b => String.eqb a b | _, _ => false end.

(** [meets r r']: [r] is closed exactly where [r'] starts, and [r'] does
    not start before [r]. *)
Definition meets (r r' : row) : bool :=
  eqS (end_date r) (start_date r') && leS (start_date r) (start_date r').

(** A contiguous history: every version but the last is closed at the
    start of its successor, starts are in non-decreasing order, and the
    last version is the current one. *)
Fixpoint contiguous (l : table) : bool :=
  match l with
  | [] => true
  | r :: tl =>
      match tl with
      | [] => is_current r
      | r' :: _ => meets r r' && contiguous tl
      end
  end.

Definition contiguous_target (target : table) : Prop :=
  forall k, contiguous (versions k target) = true.

(** The source's modified timestamps do not run backwards: a source row
    is not older than the start of the current version of its key. *)
Definition not_older (src : list src_row) (target : table) : bool :=
  forallb (fun r =>
    forallb (fun t =>
      negb (current_for (s_cust_id r) t)
      || leS (start_date t) (s_modified_date r)) target) src.

(** The PRIMARY KEY of [src], and modified timestamps that are set. *)
Fixpoint primary_key (src : list src_row) : bool :=
  match src with
  | [] => true
  | r :: tl =>
      negb (existsb (fun r' => s_cust_id r =? s_cust_id r') tl)
      && primary_key tl
  end.

Definition timestamped (src : list src_row) : bool :=
  forallb (fun r => not_null (s_modified_date r)) src.

(** [settled staging target]: no staging row differs from a current
    version, so the close-out has nothing left to close. *)
Definition settled (staging target : table) : Prop :=
  forall t, In t target -> is_current t = true ->
  forall s, In s staging -> changed t s = false.

(** The staging rows without a current version in the target. *)
Definition new_rows (staging target : table) : table :=
  filter (fun s => negb (existsb (join_on s) target)) staging.

(** *** Sample tables *)

Definition day1 := "2025-07-01 09:00:00".
Definition day2 := "2025-07-02 09:00:00".
Definition day3 := "2025-07-03 09:00:00".

(** A source with one customer, and the target holding its first
    version. *)
Definition src_one : list src_row :=
  [mk_src 1 (Some 111) (Some day1) (Some day2)].

Definition target_one : table :=
  [mk_row (Some 1) (Some 100) (Some day1) (Some day1) (Some day1) None].

(** Two staged rows for the same customer. *)
Definition staging_twice : table :=
  [stage (mk_src 1 (Some 111) (Some day1) (Some day2));
   stage (mk_src 1 (Some 222) (Some day1) (Some day3))].

(** A current version whose phone number is NULL, and a staged row that
    brings a number. *)
Definition target_null_phone : table :=
  [mk_row (Some 1) None (Some day1) (Some day1) (Some day1) None].

Definition staging_first_phone : table :=
  [stage (mk_src 1 (Some 555) (Some day1) (Some day2))].


(** *** The steps of the demo on any source *)

(** Steps 4 to 9 of [scd2_demo], from the content of [src] after step 3. *)
Definition demo_steps (src : list src_row) : table :=
  let staging := load_staging src [] in
  let target := insert_versions staging [] in
  let src := update_src src in
  let staging := reload_staging src staging in
  let target := close_out staging target in
  insert_versions staging target.

(** The columns the close-out leaves alone. *)
Definition same_but_end (t t' : row) : Prop :=
  cust_id t' = cust_id t /\ phone_no t' = phone_no t
  /\ created_date t' = created_date t /\ modified_date t' = modified_date t
  /\ start_date t' = start_date t.

(** Customers 1 and 2 with their current versions, and staged rows that
    bring customer 1 again: unchanged, or without a phone number. *)
Definition target_two : table :=
  [mk_row (Some 1) (Some 100) (Some day1) (Some day1) (Some day1) None;
   mk_row (Some 2) (Some 200) (Some day1) (Some day1) (Some day1) None].

Definition staging_same : table :=
  [stage (mk_src 1 (Some 100) (Some day1) (Some day2))].

Definition staging_no_phone : table :=
  [stage (mk_src 1 None (Some day1) (Some day2))].

Definition staging_new_key : table :=
  [stage (mk_src 3 (Some 300) (Some day2) (Some day2))].

Definition src_two : list src_row :=
  [mk_src 1 (Some 100) (Some day1) (Some day1);
   mk_src 2 (Some 200) (Some day1) (Some day1)].

End SCD2.

(** ** Incremental Data Load/staging.py *)

Module Staging.
Import Sql.

(** *** Tables

    The repository holds no CREATE TABLE statement for the four tables of
    this program.  The statements name five columns in [src_jun25],
    [stg_jun25] and [tgt_jun25]; [col1_id] is taken as their NOT NULL key
    column and [tgt_jun25] as having it as primary key, which
    ON DUPLICATE KEY relies on.  Timestamps are integers in time order,
    table names are compared as they are written, and an UPDATE sets the
    columns its SET clause lists and no other. *)

Record row := mk_row {
  col1_id : Z;
  col2_desc : option string;
  col3_desc : option string;
  created_date : option Z;
  modified_date : option Z
}.

Record control_row := mk_control {
  table_name : string;
  max_created_date : option Z;
  max_modified_date : option Z
}.

Record db := mk_db {
  src_jun25 : list row;
  stg_jun25 : list row;
  control_table : list control_row;
  tgt_jun25 : list row
}.

Definition with_src (d : db) (l : list row) : db :=
  mk_db l (stg_jun25 d) (control_table d) (tgt_jun25 d).
Definition with_stg (d : db) (l : list row) : db :=
  mk_db (src_jun25 d) l (control_table d) (tgt_jun25 d).
Definition with_control (d : db) (l : list control_row) : db :=
  mk_db (src_jun25 d) (stg_jun25 d) l (tgt_jun25 d).
Definition with_tgt (d : db) (l : list row) : db :=
  mk_db (src_jun25 d) (stg_jun25 d) (control_table d) l.

(** *** The SQL statements

    [dflt] is the value [created_date] and [modified_date] take in a row
    inserted without them (their column default). *)

(** The three columns every INSERT ... SELECT copies. *)
Definition copy (dflt : option Z) (r : row) : row :=
  mk_row (col1_id r) (col2_desc r) (col3_desc r) dflt dflt.

(** [INSERT INTO stg_jun25 (col1_id, col2_desc, col3_desc)
    SELECT col1_id, col2_desc, col3_desc FROM src_jun25]. *)
Definition load_all (dflt : option Z) (d : db) : db :=
  with_stg d (stg_jun25 d ++ map (copy dflt) (src_jun25 d)).

Definition entity : string := "tgt_jun25".

(** [INSERT INTO control_table ... VALUES ('tgt_jun25',
    CURRENT_TIMESTAMP(), CURRENT_TIMESTAMP())]. *)
Definition control_init (now : Z) (d : db) : db :=
  with_control d (control_table d ++ [mk_control entity (Some now) (Some now)]).

Definition is_entity (w : control_row) : bool :=
  String.eqb (table_name w) entity.

(** [UPDATE control_table SET max_created_date = (SELECT MAX(created_date)
    FROM tbl), max_modified_date = (SELECT MAX(modified_date) FROM tbl)
    WHERE table_name = 'tgt_jun25'], on one row. *)
Definition advance (tbl : list row) (w : control_row) : control_row :=
  if is_entity w
  then mk_control (table_name w) (max_agg (map created_date tbl))
                  (max_agg (map modified_date tbl))
  else w.

Definition control_from_stg (d : db) : db :=
  with_control d (map (advance (stg_jun25 d)) (control_table d)).

Definition control_from_tgt (d : db) : db :=
  with_control d (map (advance (tgt_jun25 d)) (control_table d)).

(** [UPDATE src_jun25 SET col2_desc = 'Joshua', col3_desc = 'Pro player'
    WHERE col1_id = 4]. *)
Definition simulate_change (d : db) : db :=
  with_src d
    (map (fun r => if col1_id r =? 4
                   then mk_row (col1_id r) (Some "Joshua") (Some "Pro player")
                               (created_date r) (modified_date r)
                   else r) (src_jun25 d)).

(** [WHERE s.created_date > c.max_created_date
       OR s.modified_date > c.max_modified_date]. *)
Definition qualifies (w : control_row) (s : row) : bool :=
  holds (or3 (gtZ (created_date s) (max_created_date w))
             (gtZ (modified_date s) (max_modified_date w))).

(** [FROM src_jun25 s JOIN control_table c ON c.table_name = 'tgt_jun25'
    WHERE ...]: one row per pair of a source row and a control row. *)
Definition delta (d : db) : list row :=
  flat_map (fun s =>
    map (fun _ => s)
        (filter (fun w => is_entity w && qualifies w s) (control_table d)))
    (src_jun25 d).

Definition load_delta (dflt : option Z) (d : db) : db :=
  with_stg d (stg_jun25 d ++ map (copy dflt) (delta d)).

Definition has_id (k : Z) (t : row) : bool := col1_id t =? k.

(** [ON DUPLICATE KEY UPDATE col2_desc = VALUES(col2_desc),
    col3_desc = VALUES(col3_desc)]. *)
Definition overwrite (s t : row) : row :=
  mk_row (col1_id t) (col2_desc s) (col3_desc s)
         (created_date t) (modified_date t).

(** One staging row of the INSERT ... ON DUPLICATE KEY UPDATE. *)
Definition upsert (dflt : option Z) (target : list row) (s : row) : list row :=
  if existsb (has_id (col1_id s)) target
  then map (fun t => if has_id (col1_id s) t then overwrite s t else t) target
  else target ++ [copy dflt s].

Definition merge_rows (dflt : option Z) (staging target : list row)
  : list row :=
  fold_left (upsert dflt) staging target.

Definition merge (dflt : option Z) (d : db) : db :=
  with_tgt d (merge_rows dflt (stg_jun25 d) (tgt_jun25 d)).

(** The SELECT * statements that feed the printed listings. *)
Definition select_all (d : db) : db := d.

(** *** The connection

    [committed] is the persistent state, [session] the state the open
    transaction sees.  Every call to the storage (execute, commit,
    rollback) is numbered; [faults n] tells whether call [n] raises.
    The printed listings are left out; the SELECT behind each of them is
    a storage call like the others. *)

Inductive call := Execute | Commit | Rollback.

Inductive exn := StorageError (op : call) (n : nat).

Inductive entry :=
| INFO (msg : string)
| ERROR (msg : string) (e : exn).

Record conn := mk_conn {
  committed : db;
  session : db;
  calls : nat;
  log : list entry
}.

Inductive outcome (A : Type) :=
| Return (a : A)
| Raise (e : exn).
Arguments Return {A} a.
Arguments Raise {A} e.

Definition M (A : Type) := conn -> outcome A * conn.

Definition ret {A} (a : A) : M A := fun c => (Return a, c).

Definition bind {A B} (m : M A) (f : A -> M B) : M B :=
  fun c => match m c with
           | (Return a, c') => f a c'
           | (Raise e, c') => (Raise e, c')
           end.

(** [try: body except Exception as e: handler e]. *)
Definition try_except {A} (body : M A) (handler : exn -> M A) : M A :=
  fun c => match body c with
           | (Return a, c') => (Return a, c')
           | (Raise e, c') => handler e c'
           end.

Notation "m1 ;; m2" := (bind m1 (fun _ => m2))
  (at level 61, right associativity).

Definition tick (c : conn) : conn :=
  mk_conn (committed c) (session c) (S (calls c)) (log c).

Definition logging_info (msg : string) : M unit :=
  fun c =>
    (Return tt,
     mk_conn (committed c) (session c) (calls c) (log c ++ [INFO msg])).

Definition logging_error (msg : string) (e : exn) : M unit :=
  fun c =>
    (Return tt,
     mk_conn (committed c) (session c) (calls c) (log c ++ [ERROR msg e])).

Section Server.
(** Which storage calls raise, the server clock at each call, and the
    column default of [created_date] and [modified_date] at a given
    time. *)
Variable faults : nat -> bool.
Variable clock : nat -> Z.
Variable column_default : Z -> option Z.

(** [cursor_obj.execute(query)]; the statement sees the clock of its
    call. *)
Definition execute (q : Z -> db -> db) : M unit :=
  fun c =>
    if faults (calls c)
    then (Raise (StorageError Execute (calls c)), tick c)
    else (Return tt,
          mk_conn (committed c) (q (clock (calls c)) (session c))
                  (S (calls c)) (log c)).

(** [conn.commit()]. *)
Definition commit : M unit :=
  fun c =>
    if faults (calls c)
    then (Raise (StorageError Commit (calls c)), tick c)
    else (Return tt, mk_conn (session c) (session c) (S (calls c)) (log c)).

(** [conn.rollback()]. *)
Definition rollback : M unit :=
  fun c =>
    if faults (calls c)
    then (Raise (StorageError Rollback (calls c)), tick c)
    else (Return tt, mk_conn (committed c) (committed c) (S (calls c)) (log c)).

(** Every function of the program has the same shape. *)
Definition guarded (body : M unit) (msg : string) : M unit :=
  try_except body (fun e => logging_error msg e ;; rollback).

Definition insert_data_to_staging : M unit :=
  guarded
    (execute (fun now => load_all (column_default now)) ;;
     commit ;;
     logging_info "Data inserted into staging table successfully." ;;
     execute (fun _ => select_all))
    "Error inserting data into staging".

Definition insert_data_to_control : M unit :=
  guarded
    (execute control_init ;;
     commit ;;
     logging_info "Data inserted into control table successfully." ;;
     execute (fun _ => select_all))
    "Error inserting data into control table".

Definition update_control_table_stg : M unit :=
  guarded
    (execute (fun _ => control_from_stg) ;;
     commit ;;
     logging_info "Control table updated after staging load." ;;
     execute (fun _ => select_all) ;;
     execute (fun _ => simulate_change) ;;
     execute (fun _ => select_all) ;;
     commit ;;
     logging_info "Source table updated to simulate a change.")
    "Error updating control table after staging".

Definition insert_into_stg : M unit :=
  guarded
    (execute (fun now => load_delta (column_default now)) ;;
     commit ;;
     logging_info
       "New or changed data inserted into staging table successfully." ;;
     execute (fun _ => select_all))
    "Error inserting new data into staging".

Definition push_to_target_table : M unit :=
  guarded
    (execute (fun now => merge (column_default now)) ;;
     commit ;;
     logging_info "Data pushed to target table successfully." ;;
     execute (fun _ => select_all))
    "Error pushing data to target table".

Definition update_control_table_tgt : M unit :=
  guarded
    (execute (fun _ => control_from_tgt) ;;
     commit ;;
     logging_info "Control table updated after target load.")
    "Error updating control table after target load".

(** The main flow, once connected (closing the connection is left
    out). *)
Definition main : M unit :=
  insert_data_to_staging ;;
  insert_data_to_control ;;
  update_control_table_stg ;;
  insert_into_stg ;;
  push_to_target_table ;;
  update_control_table_tgt.

(** The six steps with the message each logs on an error. *)
Definition steps : list (string * M unit) :=
  [("Error inserting data into staging", insert_data_to_staging);
   ("Error inserting data into control table", insert_data_to_control);
   ("Error updating control table after staging", update_control_table_stg);
   ("Error inserting new data into staging", insert_into_stg);
   ("Error pushing data to target table", push_to_target_table);
   ("Error updating control table after target load",
    update_control_table_tgt)].

End Server.

(** The state a function leaves behind. *)
Definition after {A} (m : M A) (c : conn) : conn := snd (m c).

Definition result {A} (m : M A) (c : conn) : outcome A := fst (m c).

(** The last staging row of key [k], and the row of key [k]. *)
Definition last_with_id (k : Z) (staging : list row) : option row :=
  find (has_id k) (rev staging).

Definition row_of (k : Z) (target : list row) : option row :=
  find (has_id k) target.

(** What the merge leaves for a key that staging row [s] is the last to
    carry: the old row overwritten, or a new row. *)
Definition merged_row (dflt : option Z) (old : option row) (s : row) : row :=
  match old with
  | Some t => overwrite s t
  | None => copy dflt s
  end.

Definition keys (target : list row) : list Z := map col1_id target.

(** What a merge that inserts nothing does to a target row. *)
Definition settle (staging : list row) (t : row) : row :=
  match last_with_id (col1_id t) staging with
  | Some s => overwrite s t
  | None => t
  end.

(** The column default when the next storage call of [c] runs. *)
Definition default_at (clock : nat -> Z) (column_default : Z -> option Z)
           (c : conn) : option Z :=
  column_default (clock (calls c)).

Definition leZ (x y : option Z) : Prop :=
  match x, y with Some a, Some b => a <= b | _, _ => False end.

(** *** Sample data *)

Definition no_faults : nat -> bool := fun _ => false.
Definition fault_at (n : nat) : nat -> bool := fun m => Nat.eqb m n.
Definition clock0 : nat -> Z := fun n => 1000 + Z.of_nat n.
Definition default_now : Z -> option Z := fun now => Some now.

Definition sample_src : list row :=
  [mk_row 1 (Some "Ann") (Some "Beginner") (Some 10) (Some 10);
   mk_row 4 (Some "Joe") (Some "Player") (Some 20) (Some 120)].

Definition sample_db : db :=
  mk_db sample_src
        [mk_row 9 (Some "Old") (Some "Row") (Some 50) (Some 60)]
        [mk_control entity (Some 100) (Some 100)]
        [mk_row 4 (Some "Joe") (Some "Novice") (Some 20) (Some 20)].

Definition sample_conn : conn := mk_conn sample_db sample_db 0 [].


(** *** The main block *)

(** [try: body finally: final]: the final part runs in every case; an
    error of the body is raised again after it. *)
Definition try_finally {A} (body : M A) (final : M unit) : M A :=
  fun c =>
    match body c with
    | (r, c') =>
        match final c' with
        | (Return _, c'') => (r, c'')
        | (Raise e, c'') => (Raise e, c'')
        end
    end.

(** [conn.close()]: pymysql drops the socket and passes over an error of
    the quit message. *)
Definition close : M unit := ret tt.

(** The main block once [connect_to_database] has returned a connection:
    the six steps, then the connection is closed in every case. *)
Definition main_connected (faults : nat -> bool) (clock : nat -> Z)
           (column_default : Z -> option Z) : M unit :=
  try_finally (main faults clock column_default)
              (close ;; logging_info "Database connection closed.").

(** A function returns normally, or with an error of a rollback. *)
Definition returns_or_rollback_failed (r : outcome unit) : Prop :=
  r = Return tt \/ exists n, r = Raise (StorageError Rollback n).

(** A step whose listing SELECT fails after its write [q] was committed. *)
Definition committed_with_error (msg ok : string) (f : M unit)
           (q : db -> db) (c : conn) : Prop :=
  result f c = Return tt
  /\ log (after f c)
     = log c ++ [INFO ok; ERROR msg (StorageError Execute (S (S (calls c))))]
  /\ committed (after f c) = q (session c)
  /\ session (after f c) = q (session c).

(** The control rows of the entity. *)
Definition entity_rows (d : db) : list control_row :=
  filter is_entity (control_table d).

(** A database with no control row, and one whose staging is empty. *)
Definition fresh_db : db := mk_db sample_src [] [] [].

Definition fresh_conn : conn := mk_conn fresh_db fresh_db 0 [].

Definition staged_twice : list row :=
  [mk_row 4 (Some "Joe") (Some "Player") None None;
   mk_row 4 (Some "Joshua") (Some "Pro player") None None;
   mk_row 1 (Some "Ann") (Some "Beginner") None None].

(** What the six write statements of the main flow make of a database,
    in the order of the flow; [n] is the number of the first storage call
    and the flow makes twenty calls when none fails. *)
Definition main_writes (clock : nat -> Z) (column_default : Z -> option Z)
           (n : nat) (d : db) : db :=
  let d1 := load_all (column_default (clock n)) d in
  let d2 := control_init (clock (3 + n)%nat) d1 in
  let d3 := simulate_change (control_from_stg d2) in
  let d4 := load_delta (column_default (clock (12 + n)%nat)) d3 in
  let d5 := merge (column_default (clock (15 + n)%nat)) d4 in
  control_from_tgt d5.

(** *** The storage calls of a step *)

(** Each step with its error message and the storage calls of its body,
    in the order the body makes them. *)
Definition step_calls (faults : nat -> bool) (clock : nat -> Z)
           (column_default : Z -> option Z)
  : list (string * M unit * list call) :=
  [("Error inserting data into staging",
    insert_data_to_staging faults clock column_default,
    [Execute; Commit; Execute]);
   ("Error inserting data into control table",
    insert_data_to_control faults clock,
    [Execute; Commit; Execute]);
   ("Error updating control table after staging",
    update_control_table_stg faults clock,
    [Execute; Commit; Execute; Execute; Execute; Commit]);
   ("Error inserting new data into staging",
    insert_into_stg faults clock column_default,
    [Execute; Commit; Execute]);
   ("Error pushing data to target table",
    push_to_target_table faults clock column_default,
    [Execute; Commit; Execute]);
   ("Error updating control table after target load",
    update_control_table_tgt faults clock,
    [Execute; Commit])].

Definition info (e : entry) : Prop :=
  match e with INFO _ => True | ERROR _ _ => False end.

(** Functions run one after the other, each from the state the one
    before it left. *)
Definition run_all (fs : list (M unit)) (c : conn) : conn :=
  fold_left (fun c f => after f c) fs c.

(** What a step does when call [k] of its body is the first to fail. *)
Definition caught_at (faults : nat -> bool) (msg : string) (f : M unit)
           (ops : list call) (c : conn) (k : nat) : Prop :=
  (exists infos,
     log (after f c)
     = (log c ++ infos)
       ++ [ERROR msg (StorageError (nth k ops Execute) (k + calls c))]
     /\ Forall info infos)
  /\ calls (after f c) = S (S (k + calls c))
  /\ (faults (S (k + calls c)) = false ->
      result f c = Return tt
      /\ session (after f c) = committed (after f c))
  /\ (faults (S (k + calls c)) = true ->
      result f c = Raise (StorageError Rollback (S (k + calls c)))).

End Staging.

(** ** Three-valued logic and lists *)

Module Sql_Props.
Import Sql.

Lemma holds_and3 a b : holds (and3 a b) = holds a && holds b.
Proof. destruct a as [[|]|], b as [[|]|]; reflexivity. Qed.

Lemma holds_or3 a b : holds (or3 a b) = holds a || holds b.
Proof. destruct a as [[|]|], b as [[|]|]; reflexivity. Qed.

Lemma holds_eqZ x y :
  holds (eqZ x y) = true <-> exists k, x = Some k /\ y = Some k.
Proof.
  destruct x as [a|], y as [b|]; simpl; split; try discriminate;
    try (intros (k & H1 & H2); discriminate).
  - destruct (Z.eqb_spec a b); [subst; eauto | discriminate].
  - intros (k & H1 & H2). inversion H1; inversion H2; subst.
    now rewrite Z.eqb_refl.
Qed.

Lemma neZ_sym x y : neZ x y = neZ y x.
Proof. destruct x, y; simpl; try reflexivity. now rewrite Z.eqb_sym. Qed.

Lemma neZ_irrefl x : holds (neZ x x) = false.
Proof. destruct x; simpl; try reflexivity. now rewrite Z.eqb_refl. Qed.

Lemma filter_nil_iff {A} (p : A -> bool) l :
  filter p l = [] <-> forall x, In x l -> p x = false.
Proof.
  induction l as [|a l IH]; simpl.
  - split; [intros _ x [] | reflexivity].
  - destruct (p a) eqn:E; split.
    + discriminate.
    + intros H. rewrite (H a) in E by now left. discriminate.
    + intros H x [<-|Hx]; [assumption | now apply IH].
    + intros H. apply IH. intros x Hx. apply H. now right.
Qed.

End Sql_Props.

(** ** Properties of SCD2/SCD2.py *)

Module SCD2_Props.
Import Sql Sql_Props SCD2.

(** *** The close-out, row by row *)

Lemma changed_irrefl t : changed t t = false.
Proof. unfold changed. rewrite holds_and3, neZ_irrefl. apply andb_false_r. Qed.

Lemma changed_same_key t s : changed t s = true -> same_key s t = true.
Proof.
  unfold changed, same_key. rewrite holds_and3. now intros [H _]%andb_prop.
Qed.

Lemma close_row_cust_id S t : cust_id (close_row S t) = cust_id t.
Proof. unfold close_row. now destruct (holds _). Qed.

Lemma close_row_phone_no S t : phone_no (close_row S t) = phone_no t.
Proof. unfold close_row. now destruct (holds _). Qed.

Lemma close_row_start_date S t : start_date (close_row S t) = start_date t.
Proof. unfold close_row. now destruct (holds _). Qed.

Lemma close_row_closed S t : is_current t = false -> close_row S t = t.
Proof.
  unfold close_row, is_current. rewrite holds_and3.
  destruct (end_date t); [reflexivity | discriminate].
Qed.

Lemma close_row_unchanged S t :
  filter (changed t) S = [] -> close_row S t = t.
Proof.
  unfold close_row. intros ->. rewrite holds_and3. simpl.
  now rewrite andb_false_r.
Qed.

(** A current row that some staging row differs from is given the
    modified timestamp of the first such staging row. *)
Lemma close_row_changed S t s rest :
  is_current t = true -> filter (changed t) S = s :: rest ->
  close_row S t = set_end_date t (modified_date s).
Proof.
  unfold close_row, is_current. intros Hc ->. rewrite holds_and3.
  destruct (end_date t); [discriminate | reflexivity].
Qed.

Lemma staged_in S s :
  forallb staged_row S = true -> In s S ->
  (exists k, cust_id s = Some k) /\ (exists m, modified_date s = Some m)
  /\ end_date s = None.
Proof.
  intros H Hs. rewrite forallb_forall in H. specialize (H s Hs).
  unfold staged_row, not_null, is_current in H.
  destruct (cust_id s), (modified_date s), (end_date s);
    try discriminate; eauto.
Qed.

Lemma close_row_current S t :
  forallb staged_row S = true -> is_current (close_row S t) = true ->
  filter (changed t) S = [] /\ is_current t = true.
Proof.
  intros HS Hc. destruct (is_current t) eqn:Ht.
  - split; [|reflexivity].
    destruct (filter (changed t) S) as [|s rest] eqn:F; [reflexivity|].
    rewrite (close_row_changed S t s rest Ht F) in Hc.
    assert (In s S) as Hs.
    { apply (proj1 (filter_In (changed t) s S)). rewrite F. now left. }
    destruct (staged_in S s HS Hs) as (_ & (m & Hm) & _).
    unfold is_current, set_end_date in Hc. simpl in Hc. now rewrite Hm in Hc.
  - rewrite close_row_closed in Hc by assumption. congruence.
Qed.

Lemma close_out_settled S T :
  forallb staged_row S = true -> settled S (close_out S T).
Proof.
  intros HS t' Ht' Hc s Hs. unfold close_out in Ht'.
  apply in_map_iff in Ht' as (t & <- & Ht).
  destruct (close_row_current S t HS Hc) as [F _].
  rewrite (close_row_unchanged S t F).
  now apply (proj1 (filter_nil_iff _ _) F).
Qed.

Lemma settled_close_out S T : settled S T -> close_out S T = T.
Proof.
  intros H. unfold close_out. rewrite <- (map_id T) at 2.
  apply map_ext_in. intros t Ht.
  destruct (is_current t) eqn:Hc.
  - apply close_row_unchanged, filter_nil_iff. intros s Hs. now apply (H t).
  - now apply close_row_closed.
Qed.

Lemma settled_app S T T' : settled S T -> settled S T' -> settled S (T ++ T').
Proof.
  intros H H' t Ht.
  apply in_app_or in Ht as [Ht|Ht]; [now apply H | now apply H'].
Qed.


(** *** The insert, on a settled target *)

Lemma join_on_spec s t :
  join_on s t = true <-> same_key s t = true /\ is_current t = true.
Proof.
  unfold join_on, same_key, is_current. rewrite holds_and3, andb_true_iff.
  now destruct (end_date t).
Qed.

Lemma where_new_joined S T s t :
  settled S T -> In s S -> In t T -> join_on s t = true ->
  where_new s (Some t) = false.
Proof.
  intros HT Hs Ht [Hk Hc]%join_on_spec.
  pose proof (HT t Ht Hc s Hs) as Hch.
  unfold where_new, col. rewrite holds_or3.
  unfold changed in Hch. rewrite holds_and3 in Hch.
  unfold same_key in Hk. rewrite Hk, neZ_sym in Hch. simpl in Hch. rewrite Hch.
  apply holds_eqZ in Hk as (k & _ & ->). reflexivity.
Qed.

Lemma selected_settled S T s :
  settled S T -> In s S ->
  selected T s = if existsb (join_on s) T then [] else [s].
Proof.
  intros HT Hs. unfold selected, left_join.
  destruct (filter (join_on s) T) as [|t l] eqn:F.
  - replace (existsb (join_on s) T) with false; [reflexivity|].
    symmetry. apply not_true_is_false. intros (t & Ht & Hj)%existsb_exists.
    now rewrite (proj1 (filter_nil_iff _ _) F t Ht) in Hj.
  - replace (existsb (join_on s) T) with true.
    + replace (filter (where_new s) (map Some (t :: l)))
        with (@nil (option row)); [reflexivity|].
      symmetry. apply filter_nil_iff. intros x (t' & <- & Ht')%in_map_iff.
      rewrite <- F in Ht'. apply filter_In in Ht' as [Ht' Hj].
      now apply (where_new_joined S T).
    + symmetry. apply existsb_exists. exists t.
      apply (proj1 (filter_In (join_on s) t T)). rewrite F. now left.
Qed.

Lemma flat_map_selected S0 S T :
  settled S T -> incl S0 S -> flat_map (selected T) S0 = new_rows S0 T.
Proof.
  intros HT. induction S0 as [|s S0 IH]; intros Hi; [reflexivity|].
  simpl. rewrite IH by (intros x Hx; apply Hi; now right).
  rewrite (selected_settled S T s HT) by (apply Hi; now left).
  now destruct (existsb (join_on s) T).
Qed.

Lemma insert_versions_settled S T :
  settled S T -> insert_versions S T = T ++ new_rows S T.
Proof.
  intros HT. unfold insert_versions.
  now rewrite (flat_map_selected S S T HT (incl_refl S)).
Qed.

(** *** One row per key *)

Lemma distinct_keys_eq S s s' :
  distinct_keys S = true -> In s S -> In s' S -> same_key s s' = true -> s = s'.
Proof.
  induction S as [|a S IH]; simpl; [intros _ []|].
  intros [Ha HS]%andb_prop Hs Hs' Hk.
  apply negb_true_iff in Ha.
  assert (forall x, In x S -> same_key a x = false) as Hax.
  { intros x Hx. apply not_true_is_false. intros E.
    assert (existsb (same_key a) S = true) by (apply existsb_exists; eauto).
    congruence. }
  destruct Hs as [<-|Hs], Hs' as [<-|Hs']; try reflexivity.
  - now rewrite (Hax s' Hs') in Hk.
  - unfold same_key in *. apply holds_eqZ in Hk as (k & E1 & E2).
    assert (holds (eqZ (cust_id a) (cust_id s)) = true) as E
      by (apply holds_eqZ; eauto).
    now rewrite (Hax s Hs) in E.
  - now apply IH.
Qed.

Lemma snapshot_parts S :
  snapshot S = true -> forallb staged_row S = true /\ distinct_keys S = true.
Proof. unfold snapshot. apply andb_prop. Qed.

Lemma snapshot_settled S S0 :
  snapshot S = true -> incl S0 S -> settled S S0.
Proof.
  intros [_ HD]%snapshot_parts Hi t Ht _ s Hs.
  apply not_true_is_false. intros Hch.
  pose proof (changed_same_key t s Hch) as Hk.
  rewrite (distinct_keys_eq S s t HD Hs (Hi t Ht) Hk) in Hch.
  now rewrite changed_irrefl in Hch.
Qed.

Lemma new_rows_incl S T : incl (new_rows S T) S.
Proof. intros s Hs. now apply filter_In in Hs. Qed.

Lemma join_on_self S s :
  forallb staged_row S = true -> In s S -> join_on s s = true.
Proof.
  intros HS Hs. destruct (staged_in S s HS Hs) as ((k & Hk) & _ & He).
  apply join_on_spec. unfold same_key, is_current. rewrite Hk, He. simpl.
  now rewrite Z.eqb_refl.
Qed.

(** After the insert every staging row has a current version. *)
Lemma new_rows_done S T :
  forallb staged_row S = true -> new_rows S (T ++ new_rows S T) = [].
Proof.
  intros HS. apply filter_nil_iff. intros s Hs. apply negb_false_iff.
  rewrite existsb_app. destruct (existsb (join_on s) T) eqn:E; [reflexivity|].
  simpl. apply existsb_exists. exists s. split.
  - apply filter_In. split; [assumption|]. now rewrite E.
  - now apply (join_on_self S).
Qed.

Lemma apply_versions_eq S T :
  snapshot S = true ->
  apply_versions S T = close_out S T ++ new_rows S (close_out S T).
Proof.
  intros [HS _]%snapshot_parts. unfold apply_versions.
  apply insert_versions_settled. now apply close_out_settled.
Qed.

Lemma apply_versions_settled S T :
  snapshot S = true -> settled S (apply_versions S T).
Proof.
  intros H. rewrite apply_versions_eq by assumption.
  apply settled_app.
  - apply close_out_settled. now apply snapshot_parts.
  - apply (snapshot_settled S _ H), new_rows_incl.
Qed.

Lemma idempotent_on_snapshots S T :
  snapshot S = true ->
  apply_versions S (apply_versions S T) = apply_versions S T.
Proof.
  intros H. pose proof (apply_versions_settled S T H) as Hset.
  unfold apply_versions at 1.
  rewrite (settled_close_out S _ Hset), (insert_versions_settled S _ Hset).
  rewrite apply_versions_eq by assumption.
  rewrite new_rows_done by now apply snapshot_parts.
  apply app_nil_r.
Qed.


(** *** Counting current versions *)

Lemma count_current_app k T T' :
  count_current k (T ++ T') = (count_current k T + count_current k T')%nat.
Proof. unfold count_current. now rewrite filter_app, length_app. Qed.

Lemma filter_map_length {A B} (p : B -> bool) (q : A -> bool) (f : A -> B) l :
  (forall x, In x l -> p (f x) = true -> q x = true) ->
  (List.length (filter p (map f l)) <= List.length (filter q l))%nat.
Proof.
  induction l as [|a l IH]; intros H; simpl; [lia|].
  assert (List.length (filter p (map f l)) <= List.length (filter q l))%nat
    as IH' by (apply IH; intros x Hx; apply H; now right).
  destruct (p (f a)) eqn:E.
  - rewrite (H a (or_introl eq_refl) E). simpl. lia.
  - destruct (q a); simpl; lia.
Qed.

Lemma current_for_close_row S k t :
  current_for k (close_row S t) = true -> current_for k t = true.
Proof.
  unfold current_for, has_key. rewrite close_row_cust_id.
  intros [Hk Hc]%andb_prop. rewrite Hk. simpl.
  destruct (is_current t) eqn:E; [reflexivity|].
  rewrite close_row_closed in Hc by assumption. congruence.
Qed.

(** The close-out never opens a version. *)
Lemma count_current_close_out S T k :
  (count_current k (close_out S T) <= count_current k T)%nat.
Proof.
  unfold count_current, close_out. apply filter_map_length.
  intros t _. apply current_for_close_row.
Qed.

Lemma has_key_same_key k s s' :
  has_key k s = true -> has_key k s' = true -> same_key s s' = true.
Proof.
  unfold has_key, same_key.
  destruct (cust_id s), (cust_id s'); try discriminate.
  intros ->%Z.eqb_eq ->%Z.eqb_eq. simpl. now rewrite Z.eqb_refl.
Qed.

Lemma distinct_keys_count S k :
  distinct_keys S = true -> (List.length (filter (has_key k) S) <= 1)%nat.
Proof.
  induction S as [|a S IH]; simpl; [lia|].
  intros [Ha HS]%andb_prop. specialize (IH HS).
  destruct (has_key k a) eqn:E; [|assumption]. simpl.
  replace (filter (has_key k) S) with (@nil row); [simpl; lia|].
  symmetry. apply filter_nil_iff. intros x Hx.
  apply not_true_is_false. intros Ex.
  apply negb_true_iff in Ha.
  assert (existsb (same_key a) S = true); [|congruence].
  apply existsb_exists. exists x. split; [assumption|].
  now apply (has_key_same_key k).
Qed.

Lemma filter_length_le {A} (p q : A -> bool) l :
  (forall x, In x l -> p x = true -> q x = true) ->
  (List.length (filter p l) <= List.length (filter q l))%nat.
Proof.
  intros H. rewrite <- (map_id l) at 1. now apply filter_map_length.
Qed.

Lemma count_current_new_rows S T k :
  distinct_keys S = true -> (count_current k (new_rows S T) <= 1)%nat.
Proof.
  intros HD. unfold count_current, new_rows.
  etransitivity; [|apply (distinct_keys_count S k HD)].
  etransitivity.
  - apply (filter_length_le _ (has_key k)).
    intros x _. unfold current_for. now intros [H _]%andb_prop.
  - clear. induction S as [|a S IH]; simpl; [lia|].
    destruct (negb _), (has_key k a) eqn:E; simpl; rewrite ?E; simpl; lia.
Qed.

Lemma count_current_zero k T :
  count_current k T = 0%nat <-> forall t, In t T -> current_for k t = false.
Proof.
  unfold count_current. rewrite length_zero_iff_nil. apply filter_nil_iff.
Qed.

(** A key with a current version in the target gets no new row. *)
Lemma new_rows_covered S T k :
  count_current k T <> 0%nat -> count_current k (new_rows S T) = 0%nat.
Proof.
  intros Hne. apply count_current_zero. intros s Hs.
  apply not_true_is_false. intros [Hk Hc]%andb_prop.
  destruct (filter (current_for k) T) as [|t l] eqn:F.
  - apply Hne. unfold count_current. now rewrite F.
  - assert (In t T /\ current_for k t = true) as [Ht [Hkt Hct]%andb_prop].
    { apply filter_In. rewrite F. now left. }
    apply filter_In in Hs as [_ Hn]. apply negb_true_iff in Hn.
    assert (existsb (join_on s) T = true); [|congruence].
    apply existsb_exists. exists t. split; [assumption|].
    apply join_on_spec. split; [|assumption]. now apply (has_key_same_key k).
Qed.

Lemma single_current_insert S T :
  distinct_keys S = true -> single_current T ->
  single_current (T ++ new_rows S T).
Proof.
  intros HD HT k. rewrite count_current_app.
  specialize (HT k). pose proof (count_current_new_rows S T k HD).
  destruct (Nat.eq_dec (count_current k T) 0) as [E|E].
  - lia.
  - rewrite (new_rows_covered S T k E). lia.
Qed.

Lemma single_current_close_out S T :
  single_current T -> single_current (close_out S T).
Proof.
  intros HT k. specialize (HT k).
  pose proof (count_current_close_out S T k). lia.
Qed.

Lemma single_current_nil : single_current [].
Proof. intros k. unfold count_current. simpl. lia. Qed.

Lemma settled_nil S : settled S [].
Proof. intros t []. Qed.


(** *** Histories of one key *)

Lemma contiguous_cons2 a b l :
  contiguous (a :: b :: l) = meets a b && contiguous (b :: l).
Proof. reflexivity. Qed.

Lemma meets_closed r r' : meets r r' = true -> is_current r = false.
Proof.
  unfold meets, eqS, is_current. intros [H _]%andb_prop.
  now destruct (end_date r).
Qed.

Lemma contiguous_last l t :
  contiguous (l ++ [t]) = true ->
  is_current t = true /\ forall r, In r l -> is_current r = false.
Proof.
  induction l as [|a l IH]; simpl app.
  - intros H. split; [exact H | intros r []].
  - destruct l as [|b l]; simpl app in *.
    + rewrite contiguous_cons2. intros [Hm Ht]%andb_prop.
      split; [exact Ht|]. intros r [<-|[]]. now apply (meets_closed _ t).
    + rewrite contiguous_cons2. intros [Hm Hl]%andb_prop.
      destruct (IH Hl) as [Ht Hc]. split; [exact Ht|].
      intros r [<-|Hr]; [now apply (meets_closed _ b) | now apply Hc].
Qed.

(** In a contiguous history a version followed by another is closed at
    the start of that one. *)
Lemma contiguous_adjacent l1 r r' l2 :
  contiguous (l1 ++ r :: r' :: l2) = true ->
  exists e, end_date r = Some e /\ start_date r' = Some e.
Proof.
  induction l1 as [|a l1 IH]; simpl app.
  - rewrite contiguous_cons2. intros [[Hm _]%andb_prop _]%andb_prop.
    unfold eqS in Hm. destruct (end_date r) as [e|]; [|discriminate].
    destruct (start_date r') as [e'|]; [|discriminate].
    apply String.eqb_eq in Hm. subst. eauto.
  - destruct l1 as [|b l1]; simpl app in *;
      rewrite contiguous_cons2; intros [_ H]%andb_prop; exact (IH H).
Qed.

Lemma meets_start a t t' :
  start_date t' = start_date t -> meets a t' = meets a t.
Proof. unfold meets. now intros ->. Qed.

(** Closing the last version where a new current version starts keeps
    the history contiguous. *)
Lemma contiguous_snoc l t t' s :
  contiguous (l ++ [t]) = true -> start_date t' = start_date t ->
  meets t' s = true -> is_current s = true ->
  contiguous (l ++ [t'; s]) = true.
Proof.
  intros H Hst Hm Hs. induction l as [|a l IH]; simpl app in *.
  - rewrite contiguous_cons2, Hm. exact Hs.
  - destruct l as [|b l]; simpl app in *.
    + rewrite contiguous_cons2 in H. apply andb_prop in H as [Ha Ht].
      rewrite contiguous_cons2, (meets_start a t t' Hst), Ha. exact (IH Ht).
    + rewrite contiguous_cons2 in H. apply andb_prop in H as [Ha Hl].
      rewrite contiguous_cons2, Ha. exact (IH Hl).
Qed.

Lemma has_key_close_row S k t : has_key k (close_row S t) = has_key k t.
Proof. unfold has_key. now rewrite close_row_cust_id. Qed.

Lemma versions_close_out S T k :
  versions k (close_out S T) = map (close_row S) (versions k T).
Proof.
  unfold versions, close_out. induction T as [|t T IH]; [reflexivity|].
  simpl. rewrite has_key_close_row, IH. now destruct (has_key k t).
Qed.

Lemma versions_app k T T' :
  versions k (T ++ T') = versions k T ++ versions k T'.
Proof. apply filter_app. Qed.

Lemma join_on_has_key k s t :
  has_key k s = true -> join_on s t = has_key k t && is_current t.
Proof.
  unfold join_on, has_key, is_current. rewrite holds_and3.
  destruct (cust_id s) as [a|]; [|discriminate]. intros ->%Z.eqb_eq.
  destruct (cust_id t) as [b|], (end_date t); simpl;
    rewrite ?andb_false_r, ?andb_true_r; try reflexivity;
    now rewrite Z.eqb_sym; destruct (b =? k).
Qed.

Lemma joined_versions k s T :
  has_key k s = true ->
  existsb (join_on s) T = existsb is_current (versions k T).
Proof.
  intros Hk. unfold versions. induction T as [|t T IH]; [reflexivity|].
  simpl. rewrite (join_on_has_key k s t Hk), IH.
  now destruct (has_key k t).
Qed.

(** The new rows of key [k]: its staging rows, unless the key still has
    a current version. *)
Lemma versions_new_rows k S T :
  versions k (new_rows S T)
  = if existsb is_current (versions k T) then [] else versions k S.
Proof.
  unfold new_rows, versions at 1 3. induction S as [|s S IH].
  - now destruct (existsb _ _).
  - simpl. destruct (has_key k s) eqn:Hk.
    + rewrite (joined_versions k s T Hk).
      destruct (existsb is_current (versions k T)) eqn:E; simpl.
      * rewrite <- IH. reflexivity.
      * rewrite Hk, IH. reflexivity.
    + destruct (negb (existsb (join_on s) T)); simpl; rewrite ?Hk; exact IH.
Qed.

Lemma versions_snapshot k S :
  snapshot S = true ->
  versions k S = []
  \/ exists s, versions k S = [s] /\ In s S /\ is_current s = true.
Proof.
  intros [HS HD]%snapshot_parts.
  pose proof (distinct_keys_count S k HD) as Hlen. fold (versions k S) in Hlen.
  destruct (versions k S) as [|s [|s' l]] eqn:E;
    [now left | | simpl in Hlen; lia].
  right. exists s. split; [reflexivity|].
  assert (In s S) as Hs.
  { apply (proj1 (filter_In (has_key k) s S)). unfold versions in E.
    rewrite E. now left. }
  split; [assumption|].
  destruct (staged_in S s HS Hs) as (_ & _ & He).
  unfold is_current. now rewrite He.
Qed.

Lemma map_close_row_closed S l :
  (forall r, In r l -> is_current r = false) -> map (close_row S) l = l.
Proof.
  intros H. rewrite <- (map_id l) at 2. apply map_ext_in.
  intros r Hr. apply close_row_closed. now apply H.
Qed.

Lemma existsb_closed l :
  (forall r, In r l -> is_current r = false) -> existsb is_current l = false.
Proof.
  intros H. apply not_true_is_false. intros (r & Hr & Hc)%existsb_exists.
  rewrite (H r Hr) in Hc. discriminate.
Qed.

Section OneCycle.
Variables S T : table.
Hypothesis Hsnap : snapshot S = true.
Hypothesis Hstart : forall s, In s S -> start_date s = modified_date s.
Hypothesis Hmono : forall s t, In s S -> In t T -> join_on s t = true ->
                               leS (start_date t) (start_date s) = true.

Lemma versions_apply_versions k :
  versions k (apply_versions S T)
  = map (close_row S) (versions k T)
    ++ (if existsb is_current (map (close_row S) (versions k T))
        then [] else versions k S).
Proof.
  rewrite apply_versions_eq by assumption.
  now rewrite versions_app, versions_new_rows, versions_close_out.
Qed.

(** The step on a history that ends in the current version [t]. *)
Lemma close_then_insert k l t :
  versions k T = l ++ [t] -> contiguous (l ++ [t]) = true ->
  (filter (changed t) S = [] /\ versions k (apply_versions S T) = l ++ [t])
  \/ (exists s rest, filter (changed t) S = s :: rest
      /\ versions k (apply_versions S T)
         = l ++ [set_end_date t (modified_date s); s]
      /\ contiguous (l ++ [set_end_date t (modified_date s); s]) = true).
Proof.
  intros HV Hc. destruct (contiguous_last l t Hc) as [Ht Hl].
  assert (In t T /\ has_key k t = true) as [HtT Hkt].
  { apply filter_In. fold (versions k T). rewrite HV.
    apply in_or_app. right. now left. }
  rewrite versions_apply_versions, HV, map_app, (map_close_row_closed S l Hl).
  simpl map. destruct (filter (changed t) S) as [|s rest] eqn:F.
  - left. split; [reflexivity|]. rewrite (close_row_unchanged S t F).
    rewrite existsb_app. simpl. rewrite Ht, orb_true_r. apply app_nil_r.
  - right. exists s, rest. split; [reflexivity|].
    rewrite (close_row_changed S t s rest Ht F).
    assert (In s S /\ changed t s = true) as [Hs Hch].
    { apply filter_In. rewrite F. now left. }
    destruct (staged_in S s (proj1 (snapshot_parts S Hsnap)) Hs)
      as (_ & (m & Hm) & He).
    assert (has_key k s = true) as Hks.
    { apply changed_same_key in Hch. unfold same_key in Hch.
      apply holds_eqZ in Hch as (k' & E1 & E2).
      unfold has_key in *. rewrite E2 in Hkt. now rewrite E1. }
    assert (versions k S = [s]) as HVS.
    { destruct (versions_snapshot k S Hsnap) as [E|(s' & E & Hs' & _)].
      - assert (In s (versions k S)) as Hin by (now apply filter_In).
        rewrite E in Hin. destruct Hin.
      - rewrite E. f_equal.
        apply (distinct_keys_eq S s' s (proj2 (snapshot_parts S Hsnap)) Hs' Hs).
        apply (has_key_same_key k); [|assumption].
        assert (In s' (versions k S)) as Hin by (rewrite E; now left).
        now apply filter_In in Hin. }
    rewrite HVS, existsb_app, (existsb_closed l Hl). simpl.
    unfold is_current at 1. simpl. rewrite Hm. simpl.
    rewrite <- app_assoc. simpl. split; [reflexivity|].
    rewrite <- Hm. apply (contiguous_snoc l t); [assumption|reflexivity| |].
    + unfold meets. simpl. rewrite (Hstart s Hs), Hm. unfold eqS at 1.
      rewrite String.eqb_refl. simpl.
      rewrite <- Hm, <- (Hstart s Hs). apply Hmono; try assumption.
      rewrite (join_on_has_key k s t Hks), Hkt, Ht. reflexivity.
    + unfold is_current. now rewrite He.
Qed.

Lemma contiguous_apply_versions :
  contiguous_target T -> contiguous_target (apply_versions S T).
Proof.
  intros HT k. specialize (HT k).
  destruct (versions k T) as [|a V] eqn:HV.
  - rewrite versions_apply_versions, HV. simpl.
    destruct (versions_snapshot k S Hsnap) as [->|(s & -> & _ & Hs)];
      [reflexivity | exact Hs].
  - destruct (@exists_last _ (a :: V)) as (l & t & E); [discriminate|].
    rewrite E in *.
    destruct (close_then_insert k l t HV HT)
      as [[_ ->]|(s & rest & _ & -> & H)]; assumption.
Qed.

End OneCycle.


(** *** The staging load *)

Lemma reload_staging_eq src stg : reload_staging src stg = map stage src.
Proof. reflexivity. Qed.

Lemma same_key_stage r r' :
  same_key (stage r) (stage r') = (s_cust_id r =? s_cust_id r').
Proof. unfold same_key. simpl. now destruct (_ =? _). Qed.

Lemma existsb_map_ext {A B} (p : B -> bool) (q : A -> bool) (f : A -> B) l :
  (forall x, p (f x) = q x) -> existsb p (map f l) = existsb q l.
Proof.
  intros H. induction l as [|a l IH]; simpl; [reflexivity | now rewrite H, IH].
Qed.

Lemma forallb_map_ext {A B} (p : B -> bool) (q : A -> bool) (f : A -> B) l :
  (forall x, p (f x) = q x) -> forallb p (map f l) = forallb q l.
Proof.
  intros H. induction l as [|a l IH]; simpl; [reflexivity | now rewrite H, IH].
Qed.

Lemma distinct_keys_stage src :
  primary_key src = true -> distinct_keys (map stage src) = true.
Proof.
  induction src as [|r src IH]; [reflexivity|]. simpl.
  intros [Hr Hs]%andb_prop. rewrite (IH Hs), andb_true_r.
  rewrite (existsb_map_ext _ (fun r' => s_cust_id r =? s_cust_id r'));
    [exact Hr|].
  intros r'. apply same_key_stage.
Qed.

Lemma snapshot_stage src :
  primary_key src = true -> timestamped src = true ->
  snapshot (map stage src) = true.
Proof.
  intros Hpk Hts. unfold snapshot.
  rewrite (distinct_keys_stage src Hpk), andb_true_r.
  unfold timestamped in Hts.
  rewrite (forallb_map_ext _ (fun r => not_null (s_modified_date r)));
    [exact Hts|].
  intros r. unfold staged_row, is_current. simpl. now rewrite andb_true_r.
Qed.

Lemma start_date_stage src s :
  In s (map stage src) -> start_date s = modified_date s.
Proof. now intros (r & <- & _)%in_map_iff. Qed.

Lemma not_older_stage src T s t :
  not_older src T = true -> In s (map stage src) -> In t T ->
  join_on s t = true -> leS (start_date t) (start_date s) = true.
Proof.
  unfold not_older. rewrite forallb_forall.
  intros H (r & <- & Hr)%in_map_iff Ht Hj.
  specialize (H r Hr). rewrite forallb_forall in H. specialize (H t Ht).
  rewrite (join_on_has_key (s_cust_id r)) in Hj
    by (unfold has_key; simpl; apply Z.eqb_refl).
  unfold current_for in H. rewrite Hj in H. exact H.
Qed.


(** *** The demo run *)

(** The demo ends with the first version of customer 2 closed, its new
    version current, and the other five customers untouched. *)
Example scd2_demo_target :
  map (fun t => (cust_id t, phone_no t, is_current t)) (scd2_demo day1)
  = [(Some 1, Some 9876543210, true); (Some 2, Some 9123456780, false);
     (Some 3, Some 9012345678, true); (Some 4, Some 9345678901, true);
     (Some 5, Some 9988776655, true); (Some 6, Some 666666, true);
     (Some 2, Some 666, true)].
Proof. reflexivity. Qed.

(** One cycle on the sample tables: the version of customer 1 is closed at
    the modified timestamp of the source row, where the new version
    starts. *)
Example one_cycle :
  apply_versions (reload_staging src_one []) target_one
  = [mk_row (Some 1) (Some 100) (Some day1) (Some day1) (Some day1) (Some day2);
     mk_row (Some 1) (Some 111) (Some day1) (Some day2) (Some day2) None].
Proof. reflexivity. Qed.

(** *** Idempotence *)

(** C1, as stated, fails: with two staged rows for one key and an empty
    target, the first run inserts both rows as current versions; the
    second run closes both and inserts both again. *)
Lemma apply_versions_twice_differs :
  apply_versions staging_twice (apply_versions staging_twice [])
  <> apply_versions staging_twice [].
Proof.
  intros H. apply (f_equal (@List.length row)) in H.
  vm_compute in H. discriminate H.
Defined.

(** C1, amended: for every staging snapshot (staged rows, one per key)
    and every target, a second run of the version-apply step closes no
    further row, inserts no further row, and so leaves the target exactly
    as the first run left it. *)
Theorem apply_versions_idempotent S T :
  snapshot S = true ->
  close_out S (apply_versions S T) = apply_versions S T
  /\ insert_versions S (apply_versions S T) = apply_versions S T
  /\ apply_versions S (apply_versions S T) = apply_versions S T.
Proof.
  intros H. pose proof (apply_versions_settled S T H) as Hset.
  assert (insert_versions S (apply_versions S T) = apply_versions S T) as Hins.
  { rewrite (insert_versions_settled S _ Hset).
    rewrite apply_versions_eq by assumption.
    rewrite new_rows_done by now apply snapshot_parts.
    apply app_nil_r. }
  repeat split.
  - now apply settled_close_out.
  - exact Hins.
  - now apply idempotent_on_snapshots.
Qed.

Lemma apply_versions_idempotent_witness :
  snapshot (reload_staging src_one []) = true
  /\ apply_versions (reload_staging src_one [])
       (apply_versions (reload_staging src_one []) target_one)
     = apply_versions (reload_staging src_one []) target_one.
Proof.
  split; [reflexivity|].
  apply (apply_versions_idempotent (reload_staging src_one []) target_one).
  reflexivity.
Defined.

(** *** Single current version *)

(** C2, as stated, fails: the target holds one current version of
    customer 1; with two staged rows for that customer the step closes
    the version and inserts both rows, leaving two current versions. *)
Lemma two_current_versions :
  single_current target_one
  /\ ~ single_current (apply_versions staging_twice target_one).
Proof.
  split.
  - intros k. unfold count_current, target_one. cbn [filter].
    destruct (current_for k _); simpl; lia.
  - intros H. specialize (H 1). vm_compute in H. lia.
Defined.

(** C2, amended: for every staging snapshot (staged rows, one per key),
    the initial insert into the empty target leaves at most one current
    version per key, and when the target has at most one current version
    per key, so it has after the close-out and after the insert that
    follows it. *)
Theorem single_current_preserved S T :
  snapshot S = true -> single_current T ->
  single_current (insert_versions S [])
  /\ single_current (close_out S T)
  /\ single_current (apply_versions S T).
Proof.
  intros H HT. destruct (snapshot_parts S H) as [HS HD]. repeat split.
  - rewrite (insert_versions_settled S [] (settled_nil S)).
    apply (single_current_insert S [] HD), single_current_nil.
  - now apply single_current_close_out.
  - rewrite apply_versions_eq by assumption.
    apply (single_current_insert S _ HD). now apply single_current_close_out.
Qed.

Lemma single_current_preserved_witness :
  single_current (apply_versions (reload_staging src_one []) target_one).
Proof.
  apply (single_current_preserved (reload_staging src_one []) target_one).
  - reflexivity.
  - intros k. unfold count_current, target_one. cbn [filter].
    destruct (current_for k _); simpl; lia.
Defined.

(** *** Contiguity *)

(** C3: a cycle reloads staging from the source and applies it.  When
    the source has its primary key and its modified timestamps, none of
    them older than the start of the current version of its key, and
    every key's history in the target is contiguous (each version but
    the last closed at the start of the next, starts in order, the last
    one current), the history of every key is contiguous after the
    cycle: of two versions of a key that follow each other, the first has
    as end marker the start marker of the second.  A history ending in
    [t] is either left as it is or becomes the same history with [t]
    closed at the start timestamp of the staged row [s], followed by
    [s]. *)
Theorem contiguity_preserved src stg T :
  primary_key src = true -> timestamped src = true ->
  not_older src T = true -> contiguous_target T ->
  contiguous_target (insert_versions (load_staging src []) [])
  /\ contiguous_target (apply_versions (reload_staging src stg) T)
  /\ (forall k l1 r r' l2,
       versions k (apply_versions (reload_staging src stg) T)
       = l1 ++ r :: r' :: l2 ->
       exists e, end_date r = Some e /\ start_date r' = Some e)
  /\ (forall k l t, versions k T = l ++ [t] ->
       versions k (apply_versions (reload_staging src stg) T) = l ++ [t]
       \/ exists s, In s (reload_staging src stg)
            /\ versions k (apply_versions (reload_staging src stg) T)
               = l ++ [set_end_date t (start_date s); s]).
Proof.
  intros Hpk Hts Hno HT. rewrite reload_staging_eq.
  pose proof (snapshot_stage src Hpk Hts) as Hsnap.
  assert (contiguous_target (apply_versions (map stage src) T)) as Hafter.
  { apply contiguous_apply_versions; try assumption.
    - apply start_date_stage.
    - intros s t. now apply not_older_stage. }
  split; [|split; [exact Hafter|split]].
  - intros k. unfold load_staging. simpl app.
    rewrite (insert_versions_settled _ [] (settled_nil _)). simpl app.
    unfold new_rows. simpl existsb. simpl negb.
    rewrite (forallb_filter_id (fun _ => true)) by (now apply forallb_forall).
    destruct (versions_snapshot k _ Hsnap) as [->|(s & -> & _ & Hs)];
      [reflexivity | exact Hs].
  - intros k l1 r r' l2 E. apply (contiguous_adjacent l1 r r' l2).
    rewrite <- E. apply Hafter.
  - intros k l t HV.
    destruct (close_then_insert (map stage src) T Hsnap
                (start_date_stage src)
                (fun s t => not_older_stage src T s t Hno)
                k l t HV) as [[_ E]|(s & rest & F & E & _)].
    + rewrite <- HV. apply HT.
    + now left.
    + right. exists s.
      assert (In s (map stage src)) as Hs.
      { apply (proj1 (filter_In (changed t) s (map stage src))).
        rewrite F. now left. }
      split; [assumption|]. now rewrite (start_date_stage src s Hs).
Qed.

Lemma contiguity_preserved_witness :
  contiguous_target (apply_versions (reload_staging src_one []) target_one).
Proof.
  apply (contiguity_preserved src_one [] target_one).
  - reflexivity.
  - reflexivity.
  - reflexivity.
  - intros k. unfold versions, target_one. cbn [filter].
    destruct (has_key k _); reflexivity.
Defined.

(** *** A current version with a NULL phone number *)

Lemma close_row_null_phone S t : phone_no t = None -> close_row S t = t.
Proof.
  intros Hp. apply close_row_unchanged, filter_nil_iff. intros s _.
  unfold changed. rewrite holds_and3, Hp.
  destruct (phone_no s); simpl; apply andb_false_r.
Qed.

(** C10: the current version of customer 1 has a NULL phone number and
    the staged row brings 555.  [s.phone_no != target.phone_no] is
    UNKNOWN, so the close-out closes nothing and the insert adds nothing:
    the target is left as it was. *)
Theorem null_phone_version_kept :
  close_out staging_first_phone target_null_phone = target_null_phone
  /\ apply_versions staging_first_phone target_null_phone = target_null_phone.
Proof. split; reflexivity. Qed.

End SCD2_Props.

(** ** Properties of Incremental Data Load/staging.py *)

Module Staging_Props.
Import Sql Sql_Props Staging.

(** Runs a function of the program: unfolds the monad and splits on the
    storage calls that may raise. *)
Ltac unfold_step :=
  unfold after, result,
    insert_data_to_staging, insert_data_to_control, update_control_table_stg,
    insert_into_stg, push_to_target_table, update_control_table_tgt,
    guarded, try_except, bind, execute, commit, rollback,
    logging_info, logging_error, tick.

Ltac split_calls :=
  repeat match goal with
    | H : ?f ?n = _ |- context [if ?f ?n then _ else _] => rewrite H; cbn
    | |- context [if ?f ?n then _ else _] => destruct (f n) eqn:?; cbn
    end.

Ltac run := unfold_step; cbn; split_calls.

Section Steps.
Variable faults : nat -> bool.
Variable clock : nat -> Z.
Variable column_default : Z -> option Z.

(** *** What each function commits when its first statement and the
    commit after it succeed *)

Lemma insert_data_to_staging_commits c :
  faults (calls c) = false -> faults (S (calls c)) = false ->
  committed (after (insert_data_to_staging faults clock column_default) c)
  = load_all (default_at clock column_default c) (session c).
Proof. intros H0 H1. run; reflexivity. Qed.

Lemma insert_into_stg_commits c :
  faults (calls c) = false -> faults (S (calls c)) = false ->
  committed (after (insert_into_stg faults clock column_default) c)
  = load_delta (default_at clock column_default c) (session c).
Proof. intros H0 H1. run; reflexivity. Qed.

Lemma push_to_target_table_commits c :
  faults (calls c) = false -> faults (S (calls c)) = false ->
  committed (after (push_to_target_table faults clock column_default) c)
  = merge (default_at clock column_default c) (session c).
Proof. intros H0 H1. run; reflexivity. Qed.

Lemma update_control_table_tgt_commits c :
  faults (calls c) = false -> faults (S (calls c)) = false ->
  committed (after (update_control_table_tgt faults clock) c)
  = control_from_tgt (session c).
Proof. intros H0 H1. run; reflexivity. Qed.

Lemma update_control_table_stg_commits c :
  faults (calls c) = false -> faults (S (calls c)) = false ->
  control_table
    (committed (after (update_control_table_stg faults clock) c))
  = control_table (control_from_stg (session c)).
Proof. intros H0 H1. run; reflexivity. Qed.


(** *** Staging loads *)

(** C4, amended: neither staging load clears the staging table.  When
    its INSERT and the commit succeed, a load leaves in staging the
    rows that were there followed by the rows it copies: the whole
    source for the full load, the qualifying rows for the incremental
    load.  Staging holds exactly the copied rows only when it was
    empty before. *)
Theorem staging_loads_append c :
  faults (calls c) = false -> faults (S (calls c)) = false ->
  let full := after (insert_data_to_staging faults clock column_default) c in
  let incr := after (insert_into_stg faults clock column_default) c in
  let dflt := default_at clock column_default c in
  stg_jun25 (committed full)
  = stg_jun25 (session c) ++ map (copy dflt) (src_jun25 (session c))
  /\ stg_jun25 (committed incr)
     = stg_jun25 (session c) ++ map (copy dflt) (delta (session c))
  /\ (stg_jun25 (session c) = [] ->
      stg_jun25 (committed full) = map (copy dflt) (src_jun25 (session c))
      /\ stg_jun25 (committed incr) = map (copy dflt) (delta (session c))).
Proof.
  intros H0 H1 full incr dflt. subst full incr dflt.
  rewrite insert_data_to_staging_commits, insert_into_stg_commits by assumption.
  simpl. repeat split; try reflexivity; now rewrite H.
Qed.

Lemma in_delta d w r :
  In w (control_table d) -> is_entity w = true -> In r (src_jun25 d) ->
  qualifies w r = true -> In r (delta d).
Proof.
  intros Hw He Hr Hq. unfold delta. apply in_flat_map. exists r.
  split; [assumption|]. apply in_map_iff. exists w. split; [reflexivity|].
  apply filter_In. split; [assumption|]. now rewrite He, Hq.
Qed.

(** C5: when the INSERT of the incremental load and its commit succeed,
    every source row whose created timestamp is greater than the
    stored max-created, or whose modified timestamp is greater than the
    stored max-modified, of the control row of the entity is in staging
    afterwards (its three copied columns). *)
Theorem delta_complete c w r :
  faults (calls c) = false -> faults (S (calls c)) = false ->
  In w (control_table (session c)) -> table_name w = entity ->
  In r (src_jun25 (session c)) ->
  gtZ (created_date r) (max_created_date w) = Some true
  \/ gtZ (modified_date r) (max_modified_date w) = Some true ->
  In (copy (default_at clock column_default c) r)
     (stg_jun25
        (committed (after (insert_into_stg faults clock column_default) c))).
Proof.
  intros H0 H1 Hw He Hr Hq.
  rewrite insert_into_stg_commits by assumption. simpl.
  apply in_or_app. right. apply in_map. apply (in_delta _ w); try assumption.
  - unfold is_entity. rewrite He. apply String.eqb_refl.
  - unfold qualifies. rewrite holds_or3. destruct Hq as [-> | ->]; simpl;
      [reflexivity | apply orb_true_r].
Qed.

(** *** The watermark *)

Lemma advance_entity tbl w :
  is_entity w = true ->
  advance tbl w = mk_control (table_name w) (max_agg (map created_date tbl))
                             (max_agg (map modified_date tbl)).
Proof. unfold advance. now intros ->. Qed.

(** C6, amended: when its UPDATE and the commit succeed, an advance
    replaces the stored max-created and max-modified of the entity by
    the maxima of the staging table (after the staging load) or of the
    target table (after the target load), whatever was stored; rows of
    other entities are kept.  So a stored value does not decrease when
    the maximum written is not lower than it. *)
Theorem watermark_overwritten c :
  faults (calls c) = false -> faults (S (calls c)) = false ->
  control_table (committed (after (update_control_table_stg faults clock) c))
  = map (advance (stg_jun25 (session c))) (control_table (session c))
  /\ control_table (committed (after (update_control_table_tgt faults clock) c))
     = map (advance (tgt_jun25 (session c))) (control_table (session c))
  /\ (forall tbl w, is_entity w = false -> advance tbl w = w)
  /\ (forall tbl w, is_entity w = true ->
      max_created_date (advance tbl w) = max_agg (map created_date tbl)
      /\ max_modified_date (advance tbl w) = max_agg (map modified_date tbl)
      /\ (leZ (max_created_date w) (max_agg (map created_date tbl)) ->
          leZ (max_created_date w) (max_created_date (advance tbl w)))
      /\ (leZ (max_modified_date w) (max_agg (map modified_date tbl)) ->
          leZ (max_modified_date w) (max_modified_date (advance tbl w)))).
Proof.
  intros H0 H1.
  rewrite update_control_table_stg_commits, update_control_table_tgt_commits
    by assumption.
  repeat split; try reflexivity.
  - intros tbl w E. unfold advance. now rewrite E.
  - rewrite advance_entity by assumption. reflexivity.
  - rewrite advance_entity by assumption. reflexivity.
  - rewrite advance_entity by assumption. trivial.
  - rewrite advance_entity by assumption. trivial.
Qed.

(** *** Failures *)

Lemma steps_cases msg f (P : string -> M unit -> Prop) :
  In (msg, f) (steps faults clock column_default) ->
  P "Error inserting data into staging"
    (insert_data_to_staging faults clock column_default) ->
  P "Error inserting data into control table"
    (insert_data_to_control faults clock) ->
  P "Error updating control table after staging"
    (update_control_table_stg faults clock) ->
  P "Error inserting new data into staging"
    (insert_into_stg faults clock column_default) ->
  P "Error pushing data to target table"
    (push_to_target_table faults clock column_default) ->
  P "Error updating control table after target load"
    (update_control_table_tgt faults clock) ->
  P msg f.
Proof.
  unfold steps. intros H. simpl in H.
  repeat (destruct H as [H|H]; [inversion H; subst; tauto|]).
  destruct H.
Qed.

(** C7, amended: a step is rolled back up to its last commit.  When
    the first statement of a step or the commit after it fails, the
    persistent state is as before the step, and once the rollback has
    run the session sees that state again, in the one case and in the
    other; a step that returns normally leaves the session at the
    persistent state.  [update_control_table_stg] commits its watermark
    update before it updates the source: when the source update, or any
    storage call behind the first commit, fails, the watermark update
    stays. *)
Theorem rollback_to_last_commit c :
  (forall msg f, In (msg, f) (steps faults clock column_default) ->
     (faults (calls c) = true \/ faults (S (calls c)) = true ->
      committed (after f c) = committed c
      /\ (faults (calls c) = true -> faults (S (calls c)) = false ->
          session (after f c) = committed c)
      /\ (faults (calls c) = false -> faults (S (S (calls c))) = false ->
          session (after f c) = committed c))
     /\ (result f c = Return tt ->
         session (after f c) = committed (after f c)))
  /\ (faults (calls c) = false -> faults (S (calls c)) = false ->
      faults (S (S (calls c))) = true
      \/ faults (S (S (S (calls c)))) = true
      \/ faults (S (S (S (S (calls c))))) = true
      \/ faults (S (S (S (S (S (calls c)))))) = true ->
      committed (after (update_control_table_stg faults clock) c)
      = control_from_stg (session c)).
Proof.
  split.
  - intros msg f Hin.
    apply (steps_cases msg f (fun _ f =>
      (faults (calls c) = true \/ faults (S (calls c)) = true ->
       committed (after f c) = committed c
       /\ (faults (calls c) = true -> faults (S (calls c)) = false ->
           session (after f c) = committed c)
       /\ (faults (calls c) = false -> faults (S (S (calls c))) = false ->
           session (after f c) = committed c))
      /\ (result f c = Return tt ->
          session (after f c) = committed (after f c))) Hin);
      (split;
       [ intros Hf; split;
         [ destruct Hf as [Hf|Hf]; run; try reflexivity
         | split;
           [ intros Ha Hb; run; reflexivity
           | intros Ha Hb; destruct Hf as [Hf|Hf]; [congruence|];
             run; reflexivity ] ]
       | run; intros E; try discriminate E; reflexivity ]).
  - intros H0 H1 [H|[H|[H|H]]]; run; reflexivity.
Qed.

Lemma step_calls_cases msg f ops
      (P : string -> M unit -> list call -> Prop) :
  In (msg, f, ops) (step_calls faults clock column_default) ->
  P "Error inserting data into staging"
    (insert_data_to_staging faults clock column_default)
    [Execute; Commit; Execute] ->
  P "Error inserting data into control table"
    (insert_data_to_control faults clock) [Execute; Commit; Execute] ->
  P "Error updating control table after staging"
    (update_control_table_stg faults clock)
    [Execute; Commit; Execute; Execute; Execute; Commit] ->
  P "Error inserting new data into staging"
    (insert_into_stg faults clock column_default)
    [Execute; Commit; Execute] ->
  P "Error pushing data to target table"
    (push_to_target_table faults clock column_default)
    [Execute; Commit; Execute] ->
  P "Error updating control table after target load"
    (update_control_table_tgt faults clock) [Execute; Commit] ->
  P msg f ops.
Proof.
  unfold step_calls. intros H. simpl in H.
  repeat (destruct H as [H|H]; [inversion H; subst; tauto|]).
  destruct H.
Qed.

(** The calls before call [k] of the body, known to succeed. *)
Ltac call_before Hb i :=
  try (let H := fresh "Hc" in
       pose proof (Hb i ltac:(simpl; lia)) as H; simpl in H).

Ltac calls_before Hb :=
  call_before Hb 0%nat; call_before Hb 1%nat; call_before Hb 2%nat;
  call_before Hb 3%nat; call_before Hb 4%nat; call_before Hb 5%nat.

Ltac all_infos := repeat (constructor; [exact I|]); constructor.

Ltac only_infos :=
  first [ exists (@nil entry); split;
          [rewrite app_nil_r; reflexivity | all_infos]
        | eexists; split; [reflexivity | all_infos] ].

Ltac infos_logged :=
  first [ exists (@nil entry); split;
          [rewrite app_nil_r; reflexivity | all_infos]
        | eexists [_]; split; [reflexivity | all_infos]
        | eexists [_; _]; split;
          [rewrite <- app_assoc; reflexivity | all_infos] ].

Lemma step_caught msg f ops c k :
  In (msg, f, ops) (step_calls faults clock column_default) ->
  (k < List.length ops)%nat ->
  (forall i, (i < k)%nat -> faults (i + calls c) = false) ->
  faults (k + calls c) = true ->
  caught_at faults msg f ops c k.
Proof.
  intros Hin.
  apply (step_calls_cases msg f ops (fun msg f ops =>
    (k < List.length ops)%nat ->
    (forall i, (i < k)%nat -> faults (i + calls c) = false) ->
    faults (k + calls c) = true -> caught_at faults msg f ops c k) Hin);
    intros Hk Hb Hf; unfold caught_at;
    destruct k as [|[|[|[|[|[|k]]]]]]; simpl in Hk; try lia;
    calls_before Hb; simpl in Hf; run;
    (split; [only_infos|]);
    (split; [reflexivity|]);
    (split; intros E; try discriminate E; try split; reflexivity).
Qed.

Lemma step_clean msg f ops c :
  In (msg, f, ops) (step_calls faults clock column_default) ->
  (forall i, (i < List.length ops)%nat -> faults (i + calls c) = false) ->
  result f c = Return tt
  /\ exists infos, log (after f c) = log c ++ infos /\ Forall info infos.
Proof.
  intros Hin.
  apply (step_calls_cases msg f ops (fun msg f ops =>
    (forall i, (i < List.length ops)%nat -> faults (i + calls c) = false) ->
    result f c = Return tt
    /\ exists infos, log (after f c) = log c ++ infos /\ Forall info infos)
    Hin);
    intros Hb; calls_before Hb; run;
    (split; [reflexivity | infos_logged]).
Qed.

Lemma step_never_reraises msg f c :
  In (msg, f) (steps faults clock column_default) ->
  returns_or_rollback_failed (result f c).
Proof.
  intros Hin. unfold returns_or_rollback_failed.
  apply (steps_cases msg f (fun _ f =>
    result f c = Return tt
    \/ exists n, result f c = Raise (StorageError Rollback n)) Hin);
    run; eauto.
Qed.

Lemma step_first_call_fails msg f c :
  In (msg, f) (steps faults clock column_default) ->
  faults (calls c) = true -> faults (S (calls c)) = false ->
  result f c = Return tt
  /\ log (after f c) = log c ++ [ERROR msg (StorageError Execute (calls c))]
  /\ session (after f c) = committed c
  /\ committed (after f c) = committed c.
Proof.
  intros Hin.
  apply (steps_cases msg f (fun msg f =>
    faults (calls c) = true -> faults (S (calls c)) = false ->
    result f c = Return tt
    /\ log (after f c)
       = log c ++ [ERROR msg (StorageError Execute (calls c))]
    /\ session (after f c) = committed c
    /\ committed (after f c) = committed c) Hin);
    intros Ha Hb; run; repeat split; reflexivity.
Qed.

Lemma seq_never_reraises (m k : M unit) :
  (forall c, returns_or_rollback_failed (result m c)) ->
  (forall c, returns_or_rollback_failed (result k c)) ->
  forall c, returns_or_rollback_failed (result (m ;; k) c).
Proof.
  intros Hm Hk c. specialize (Hm c). unfold result, bind in *.
  destruct (m c) as [[[]|e] c']; simpl in *; [apply Hk | exact Hm].
Qed.

Lemma main_never_reraises c :
  returns_or_rollback_failed (result (main faults clock column_default) c).
Proof.
  unfold main.
  repeat (apply seq_never_reraises;
          [intros c0; eapply step_never_reraises; simpl; tauto|]).
  intros c0. eapply step_never_reraises. simpl. tauto.
Qed.

Lemma seq_goes_on (m k : M unit) c :
  result (m ;; k) c = Return tt ->
  result m c = Return tt
  /\ result k (after m c) = Return tt
  /\ after (m ;; k) c = after k (after m c).
Proof.
  unfold result, after, bind. destruct (m c) as [[[]|e] c']; simpl.
  - intros E. now repeat split.
  - discriminate.
Qed.

Lemma main_goes_on c :
  result (main faults clock column_default) c = Return tt ->
  after (main faults clock column_default) c
  = run_all (map snd (steps faults clock column_default)) c.
Proof.
  unfold main, run_all, steps. simpl. intros E.
  repeat (apply seq_goes_on in E as (_ & E & ->)). reflexivity.
Qed.

(** C8, amended: no step re-raises a storage error of its body.
    Whichever call of the body is the first to fail, the execute or the
    commit, the step catches the error, logs an error entry with its own
    message and that error as the last entry of its log, and calls
    rollback; when the rollback succeeds the step returns normally with
    the transaction rolled back, and when it fails its error is the one
    that reaches the caller, the only one that can.  When no call of the
    body fails the step returns normally and logs no error.  The main
    flow never raises an error of an execute or of a commit either, and
    when it returns it has run the six steps one after the other, each
    from the state the step before it left, whether that step logged an
    error or not. *)
Theorem errors_logged_not_raised c :
  (forall msg f ops,
     In (msg, f, ops) (step_calls faults clock column_default) ->
     In (msg, f) (steps faults clock column_default)
     /\ (result f c = Return tt
         \/ exists n, result f c = Raise (StorageError Rollback n))
     /\ (faults (calls c) = true -> faults (S (calls c)) = false ->
         result f c = Return tt
         /\ log (after f c)
            = log c ++ [ERROR msg (StorageError Execute (calls c))]
         /\ session (after f c) = committed c
         /\ committed (after f c) = committed c)
     /\ (forall k, (k < List.length ops)%nat ->
         (forall i, (i < k)%nat -> faults (i + calls c) = false) ->
         faults (k + calls c) = true ->
         (exists infos,
            log (after f c)
            = (log c ++ infos)
              ++ [ERROR msg (StorageError (nth k ops Execute) (k + calls c))]
            /\ Forall info infos)
         /\ calls (after f c) = S (S (k + calls c))
         /\ (faults (S (k + calls c)) = false ->
             result f c = Return tt
             /\ session (after f c) = committed (after f c))
         /\ (faults (S (k + calls c)) = true ->
             result f c = Raise (StorageError Rollback (S (k + calls c)))))
     /\ ((forall i, (i < List.length ops)%nat ->
            faults (i + calls c) = false) ->
         result f c = Return tt
         /\ exists infos,
              log (after f c) = log c ++ infos /\ Forall info infos))
  /\ map fst (step_calls faults clock column_default)
     = steps faults clock column_default
  /\ (result (main faults clock column_default) c = Return tt
      \/ exists n, result (main faults clock column_default) c
                   = Raise (StorageError Rollback n))
  /\ (result (main faults clock column_default) c = Return tt ->
      after (main faults clock column_default) c
      = run_all (map snd (steps faults clock column_default)) c).
Proof.
  split; [|split; [reflexivity|split;
                   [apply main_never_reraises | apply main_goes_on]]].
  intros msg f ops Hin.
  assert (In (msg, f) (steps faults clock column_default)) as Hs.
  { change (steps faults clock column_default)
      with (map fst (step_calls faults clock column_default)).
    apply in_map_iff. now exists (msg, f, ops). }
  split; [exact Hs|]. split; [exact (step_never_reraises msg f c Hs)|].
  split; [exact (step_first_call_fails msg f c Hs)|].
  split; [|exact (step_clean msg f ops c Hin)].
  intros k Hk Hb Hf. exact (step_caught msg f ops c k Hin Hk Hb Hf).
Qed.

End Steps.


(** *** The merge *)

Lemma has_id_present k T : existsb (has_id k) T = true <-> In k (keys T).
Proof.
  unfold keys. rewrite existsb_exists, in_map_iff. unfold has_id.
  split; intros (t & H1 & H2).
  - exists t. split; [now apply Z.eqb_eq | assumption].
  - exists t. split; [assumption | now apply Z.eqb_eq].
Qed.

Lemma keys_overwritten s T :
  keys (map (fun t => if has_id (col1_id s) t then overwrite s t else t) T)
  = keys T.
Proof.
  unfold keys. rewrite map_map. apply map_ext. intros t.
  now destruct (has_id _ t).
Qed.

Lemma keys_upsert dflt T s :
  keys (upsert dflt T s)
  = if existsb (has_id (col1_id s)) T then keys T else keys T ++ [col1_id s].
Proof.
  unfold upsert. destruct (existsb _ T).
  - apply keys_overwritten.
  - unfold keys. now rewrite map_app.
Qed.

Lemma NoDup_upsert dflt T s : NoDup (keys T) -> NoDup (keys (upsert dflt T s)).
Proof.
  intros H. rewrite keys_upsert.
  destruct (existsb (has_id (col1_id s)) T) eqn:E; [assumption|].
  apply NoDup_app. repeat split.
  - assumption.
  - constructor; [intros [] | constructor].
  - intros k Hk [<-|[]]. apply has_id_present in Hk. congruence.
Qed.

Lemma NoDup_merge_rows dflt S T :
  NoDup (keys T) -> NoDup (keys (merge_rows dflt S T)).
Proof.
  unfold merge_rows. revert T. induction S as [|s S IH]; intros T H; simpl.
  - assumption.
  - apply IH. now apply NoDup_upsert.
Qed.

Lemma merge_rows_snoc dflt S s T :
  merge_rows dflt (S ++ [s]) T = upsert dflt (merge_rows dflt S T) s.
Proof. unfold merge_rows. now rewrite fold_left_app. Qed.

Lemma last_with_id_snoc k S s :
  last_with_id k (S ++ [s]) = if has_id k s then Some s else last_with_id k S.
Proof. unfold last_with_id. now rewrite rev_unit. Qed.

Lemma find_map_same {A} (p : A -> bool) (g : A -> A) l :
  (forall x, p (g x) = p x) -> find p (map g l) = option_map g (find p l).
Proof.
  intros H. induction l as [|a l IH]; [reflexivity|].
  simpl. rewrite H. now destruct (p a).
Qed.

Lemma find_snoc {A} (p : A -> bool) l x :
  find p (l ++ [x])
  = match find p l with
    | Some y => Some y
    | None => if p x then Some x else None
    end.
Proof.
  induction l as [|a l IH]; simpl; [reflexivity|]. now destruct (p a).
Qed.

Lemma row_of_has_id k T t : row_of k T = Some t -> col1_id t = k.
Proof. intros [_ H]%find_some. now apply Z.eqb_eq. Qed.

Lemma row_of_absent k T : existsb (has_id k) T = false -> row_of k T = None.
Proof.
  intros E. unfold row_of. destruct (find (has_id k) T) eqn:F; [|reflexivity].
  apply find_some in F as [Hin Hk].
  assert (existsb (has_id k) T = true) by (apply existsb_exists; eauto).
  congruence.
Qed.

Lemma row_of_present k T :
  existsb (has_id k) T = true -> exists t, row_of k T = Some t.
Proof.
  intros (t & Hin & Hk)%existsb_exists. unfold row_of.
  destruct (find (has_id k) T) eqn:F; [eauto|].
  now rewrite (find_none _ _ F t Hin) in Hk.
Qed.

(** The row of key [k] after one staging row. *)
Lemma row_of_upsert dflt T s k :
  row_of k (upsert dflt T s)
  = if col1_id s =? k
    then Some (merged_row dflt (row_of (col1_id s) T) s)
    else row_of k T.
Proof.
  unfold upsert. destruct (existsb (has_id (col1_id s)) T) eqn:E.
  - unfold row_of at 1. rewrite find_map_same
      by (intros t; unfold has_id; now destruct (col1_id t =? col1_id s)).
    fold (row_of k T). destruct (Z.eqb_spec (col1_id s) k) as [<-|Hne].
    + destruct (row_of_present _ _ E) as (t & Ht). rewrite Ht. simpl.
      pose proof (row_of_has_id _ _ _ Ht) as Hid.
      unfold has_id. now rewrite Hid, Z.eqb_refl.
    + destruct (row_of k T) as [t|] eqn:Ht; [|reflexivity]. simpl.
      pose proof (row_of_has_id _ _ _ Ht) as Hid. unfold has_id. rewrite Hid.
      destruct (Z.eqb_spec k (col1_id s)); [congruence | reflexivity].
  - unfold row_of at 1. rewrite find_snoc. fold (row_of k T).
    unfold has_id at 1. simpl col1_id.
    destruct (Z.eqb_spec (col1_id s) k) as [<-|Hne].
    + now rewrite (row_of_absent _ _ E).
    + now destruct (row_of k T).
Qed.

Lemma overwrite_twice s s' t : overwrite s (overwrite s' t) = overwrite s t.
Proof. reflexivity. Qed.

(** The row of key [k] after the merge: what the last staging row of
    that key makes of the row that was there, or the row that was
    there. *)
Lemma row_of_merge_rows dflt S T k :
  row_of k (merge_rows dflt S T)
  = match last_with_id k S with
    | Some s => Some (merged_row dflt (row_of k T) s)
    | None => row_of k T
    end.
Proof.
  induction S as [|s S IH] using rev_ind; [reflexivity|].
  rewrite merge_rows_snoc, row_of_upsert, last_with_id_snoc.
  unfold has_id at 1. destruct (Z.eqb_spec (col1_id s) k) as [E|Hne].
  - subst k. rewrite IH. destruct (last_with_id (col1_id s) S) as [s'|] eqn:L;
      [|reflexivity].
    f_equal. destruct (row_of (col1_id s) T) as [t0|]; simpl; [reflexivity|].
    apply find_some in L as [_ L]. apply Z.eqb_eq in L.
    unfold overwrite, copy. simpl. now rewrite L.
  - exact IH.
Qed.


Lemma keys_upsert_incl dflt T s :
  incl (keys T) (keys (upsert dflt T s))
  /\ In (col1_id s) (keys (upsert dflt T s)).
Proof.
  rewrite keys_upsert. destruct (existsb (has_id (col1_id s)) T) eqn:E.
  - split; [apply incl_refl | now apply has_id_present].
  - split; [apply incl_appl, incl_refl | apply in_or_app; right; now left].
Qed.

(** After the merge every staging key has a row. *)
Lemma keys_merge_rows dflt S T :
  incl (keys T) (keys (merge_rows dflt S T))
  /\ forall s, In s S -> In (col1_id s) (keys (merge_rows dflt S T)).
Proof.
  unfold merge_rows. revert T. induction S as [|s S IH]; intros T; simpl.
  - split; [apply incl_refl | intros s []].
  - destruct (IH (upsert dflt T s)) as [Hi Hs].
    destruct (keys_upsert_incl dflt T s) as [Hi' Hs']. split.
    + eapply incl_tran; eassumption.
    + intros x [<-|Hx]; [now apply Hi | now apply Hs].
Qed.

Lemma last_with_id_cons k s S :
  last_with_id k (s :: S)
  = match last_with_id k S with
    | Some x => Some x
    | None => if has_id k s then Some s else None
    end.
Proof. unfold last_with_id. simpl rev. apply find_snoc. Qed.

Lemma merge_rows_present dflt S T :
  (forall s, In s S -> In (col1_id s) (keys T)) ->
  merge_rows dflt S T = map (settle S) T.
Proof.
  unfold merge_rows. revert T. induction S as [|s S IH]; intros T H; simpl.
  - symmetry. rewrite <- (map_id T) at 2. now apply map_ext.
  - assert (existsb (has_id (col1_id s)) T = true) as E
      by (apply has_id_present, H; now left).
    unfold upsert at 2. rewrite E. rewrite IH.
    + rewrite map_map. apply map_ext. intros t. unfold settle.
      rewrite last_with_id_cons.
      assert (col1_id (if has_id (col1_id s) t then overwrite s t else t)
              = col1_id t) as -> by now destruct (has_id _ t).
      destruct (last_with_id (col1_id t) S).
      * now destruct (has_id (col1_id s) t).
      * unfold has_id. rewrite (Z.eqb_sym (col1_id s) (col1_id t)).
        now destruct (col1_id t =? col1_id s).
    + intros x Hx. rewrite keys_overwritten. apply H. now right.
Qed.

(** After the merge a row whose key is in staging carries the tracked
    columns of the last staging row of that key. *)
Lemma merge_rows_settled dflt S T t :
  In t (merge_rows dflt S T) -> settle S t = t.
Proof.
  revert t. induction S as [|s S IH] using rev_ind; intros t Ht.
  - reflexivity.
  - rewrite merge_rows_snoc in Ht. unfold settle. rewrite last_with_id_snoc.
    unfold upsert in Ht.
    destruct (existsb (has_id (col1_id s)) (merge_rows dflt S T)) eqn:E.
    + apply in_map_iff in Ht as (t' & <- & Ht').
      unfold has_id in *.
      destruct (Z.eqb_spec (col1_id t') (col1_id s)) as [Eq|Ne].
      * simpl col1_id. now rewrite Eq, Z.eqb_refl.
      * destruct (Z.eqb_spec (col1_id s) (col1_id t')); [congruence|].
        now apply IH.
    + apply in_app_or in Ht as [Ht|[<-|[]]].
      * unfold has_id at 1.
        destruct (Z.eqb_spec (col1_id s) (col1_id t)) as [Eq|Ne];
          [|now apply IH].
        assert (existsb (has_id (col1_id s)) (merge_rows dflt S T) = true);
          [|congruence].
        apply existsb_exists. exists t. split; [assumption|].
        unfold has_id. rewrite Eq. apply Z.eqb_refl.
      * unfold has_id. simpl col1_id. now rewrite Z.eqb_refl.
Qed.

Lemma merge_rows_idempotent dflt dflt' S T :
  merge_rows dflt' S (merge_rows dflt S T) = merge_rows dflt S T.
Proof.
  rewrite merge_rows_present by (apply keys_merge_rows).
  rewrite <- (map_id (merge_rows dflt S T)) at 2.
  apply map_ext_in. intros t. apply merge_rows_settled.
Qed.


Lemma push_to_target_table_runs faults clock column_default c :
  (forall n, faults n = false) ->
  let d := merge (column_default (clock (calls c))) (session c) in
  after (push_to_target_table faults clock column_default) c
  = mk_conn d d (S (S (S (calls c))))
            (log c ++ [INFO "Data pushed to target table successfully."]).
Proof. intros H. unfold_step. cbn. rewrite !H. reflexivity. Qed.

(** C9: when no storage call fails and the target has at most one row
    per key, then after [push_to_target_table] the target has at most
    one row per key; the row of a key that staging carries is the row
    that was there with the tracked columns of the last staging row of
    that key written over it, or a new row when there was none; the rows
    of the other keys are as before; and running it once more on the
    same staging leaves the target as it is. *)
Theorem merge_upserts faults clock column_default c :
  (forall n, faults n = false) ->
  NoDup (keys (tgt_jun25 (session c))) ->
  let push := push_to_target_table faults clock column_default in
  let dflt := default_at clock column_default c in
  let staging := stg_jun25 (session c) in
  let target := tgt_jun25 (session c) in
  let target' := tgt_jun25 (committed (after push c)) in
  NoDup (keys target')
  /\ (forall k s, last_with_id k staging = Some s ->
      row_of k target' = Some (merged_row dflt (row_of k target) s))
  /\ (forall k, last_with_id k staging = None ->
      row_of k target' = row_of k target)
  /\ stg_jun25 (committed (after push c)) = staging
  /\ tgt_jun25 (committed (after push (after push c))) = target'.
Proof.
  intros H Hnd push dflt staging target target'.
  subst push target'. rewrite !push_to_target_table_runs by assumption.
  cbn [committed session calls tgt_jun25 stg_jun25 merge with_tgt].
  fold dflt staging target. repeat split.
  - now apply NoDup_merge_rows.
  - intros k s L. now rewrite row_of_merge_rows, L.
  - intros k L. now rewrite row_of_merge_rows, L.
  - apply merge_rows_idempotent.
Qed.

(** *** On the sample data *)

(** C4, as stated, fails: staging holds the row of key 9 before the
    loads and still holds it after each of them, in front of the copied
    rows. *)
Lemma staging_keeps_old_rows :
  let full :=
    after (insert_data_to_staging no_faults clock0 default_now) sample_conn in
  let incr :=
    after (insert_into_stg no_faults clock0 default_now) sample_conn in
  map col1_id (stg_jun25 (committed full)) = [9; 1; 4]
  /\ stg_jun25 (committed full) <> map (copy (Some 1000)) (src_jun25 sample_db)
  /\ map col1_id (stg_jun25 (committed incr)) = [9; 4]
  /\ stg_jun25 (committed incr) <> map (copy (Some 1000)) (delta sample_db).
Proof. repeat split; try reflexivity; intros H; discriminate H. Defined.

Lemma staging_loads_append_witness :
  stg_jun25 (committed
    (after (insert_data_to_staging no_faults clock0 default_now) sample_conn))
  = stg_jun25 sample_db ++ map (copy (Some 1000)) (src_jun25 sample_db).
Proof.
  apply (staging_loads_append no_faults clock0 default_now sample_conn);
    reflexivity.
Defined.

Lemma delta_complete_witness :
  In (copy (Some 1000)
           (mk_row 4 (Some "Joe") (Some "Player") (Some 20) (Some 120)))
     (stg_jun25 (committed
        (after (insert_into_stg no_faults clock0 default_now) sample_conn))).
Proof.
  apply (delta_complete no_faults clock0 default_now sample_conn
           (mk_control entity (Some 100) (Some 100))).
  - reflexivity.
  - reflexivity.
  - simpl. now left.
  - reflexivity.
  - simpl. right. now left.
  - right. reflexivity.
Defined.

(** C6, as stated, fails: the stored watermark is (100, 100) and the
    maxima over staging are (50, 60); the advance writes the lower
    values and logs no error. *)
Lemma watermark_moves_back :
  let c' := after (update_control_table_stg no_faults clock0) sample_conn in
  control_table (committed sample_conn)
  = [mk_control entity (Some 100) (Some 100)]
  /\ control_table (committed c') = [mk_control entity (Some 50) (Some 60)]
  /\ log c' = [INFO "Control table updated after staging load.";
               INFO "Source table updated to simulate a change."].
Proof. repeat split. Defined.

Lemma watermark_overwritten_witness :
  control_table (committed
    (after (update_control_table_stg no_faults clock0) sample_conn))
  = map (advance (stg_jun25 sample_db)) (control_table sample_db).
Proof.
  apply (watermark_overwritten no_faults clock0 sample_conn); reflexivity.
Defined.

(** C7, as stated, fails: the fourth storage call of
    [update_control_table_stg], the UPDATE of the source, raises; the
    step logs the error and rolls back, and the watermark update it had
    committed before stays in the persistent state. *)
Lemma watermark_update_survives_failure :
  let c' := after (update_control_table_stg (fault_at 3) clock0) sample_conn in
  log c' = [INFO "Control table updated after staging load.";
            ERROR "Error updating control table after staging"
                  (StorageError Execute 3)]
  /\ src_jun25 (committed c') = src_jun25 (committed sample_conn)
  /\ control_table (committed c') = [mk_control entity (Some 50) (Some 60)]
  /\ committed c' <> committed sample_conn.
Proof. repeat split. intros H. discriminate H. Defined.

Lemma rollback_to_last_commit_witness :
  committed
    (after (insert_data_to_staging (fault_at 1) clock0 default_now) sample_conn)
  = committed sample_conn
  /\ session
       (after (insert_data_to_staging (fault_at 1) clock0 default_now)
              sample_conn)
     = committed sample_conn.
Proof.
  destruct (proj1 (proj1 (rollback_to_last_commit (fault_at 1) clock0
                            default_now sample_conn)
                     "Error inserting data into staging"
                     (insert_data_to_staging (fault_at 1) clock0 default_now)
                     (or_introl eq_refl))
              (or_intror eq_refl)) as (Hc & _ & Hs).
  split; [exact Hc | apply Hs; reflexivity].
Defined.

(** C8, as stated, fails: the INSERT of [insert_data_to_staging] raises;
    the function logs the error, rolls back and returns normally, and the
    main flow goes on with the next step and returns normally too. *)
Lemma staging_error_not_raised :
  let load := insert_data_to_staging (fault_at 0) clock0 default_now in
  result load sample_conn = Return tt
  /\ log (after load sample_conn)
     = [ERROR "Error inserting data into staging" (StorageError Execute 0)]
  /\ result (main (fault_at 0) clock0 default_now) sample_conn = Return tt
  /\ firstn 2 (log (after (main (fault_at 0) clock0 default_now) sample_conn))
     = [ERROR "Error inserting data into staging" (StorageError Execute 0);
        INFO "Data inserted into control table successfully."].
Proof. repeat split. Defined.

Lemma errors_logged_not_raised_witness :
  result (push_to_target_table (fault_at 1) clock0 default_now) sample_conn
  = Return tt
  /\ session (after (push_to_target_table (fault_at 1) clock0 default_now)
                    sample_conn)
     = committed (after (push_to_target_table (fault_at 1) clock0 default_now)
                        sample_conn).
Proof.
  apply (proj1 (errors_logged_not_raised (fault_at 1) clock0 default_now
                  sample_conn)
           "Error pushing data to target table"
           (push_to_target_table (fault_at 1) clock0 default_now)
           [Execute; Commit; Execute]) with (k := 1%nat).
  - simpl. tauto.
  - simpl. lia.
  - intros i Hi. assert (i = 0%nat) as -> by lia. reflexivity.
  - reflexivity.
  - reflexivity.
Defined.

Lemma merge_upserts_witness :
  NoDup (keys (tgt_jun25 (committed
    (after (push_to_target_table no_faults clock0 default_now) sample_conn)))).
Proof.
  apply (merge_upserts no_faults clock0 default_now sample_conn).
  - intros n. reflexivity.
  - simpl. constructor; [intros [] | constructor].
Defined.

End Staging_Props.

(** ** More on SCD2/SCD2.py *)

Module SCD2_More.
Import Sql Sql_Props SCD2 SCD2_Props.

Lemma same_key_has_key k s t :
  same_key s t = true -> has_key k t = true -> has_key k s = true.
Proof.
  unfold same_key, has_key. intros (k' & -> & ->)%holds_eqZ. trivial.
Qed.

Lemma selected_is_staged T s x : In x (selected T s) -> x = s.
Proof. unfold selected. now intros (y & <- & _)%in_map_iff. Qed.

Lemma versions_nil k l :
  (forall x, In x l -> has_key k x = false) -> versions k l = [].
Proof. intros H. now apply filter_nil_iff. Qed.

(** X1: a key that no staging row carries is left alone: its versions in
    the target are the same rows after the version-apply step, whatever
    staging and the target hold. *)
Theorem absent_key_untouched S T k :
  (forall s, In s S -> has_key k s = false) ->
  versions k (apply_versions S T) = versions k T.
Proof.
  intros H. unfold apply_versions, insert_versions.
  rewrite versions_app, versions_close_out.
  rewrite (versions_nil k (flat_map _ S)), app_nil_r.
  - rewrite <- (map_id (versions k T)) at 2. apply map_ext_in.
    intros t [_ Hk]%filter_In. apply close_row_unchanged, filter_nil_iff.
    intros s Hs. apply not_true_is_false. intros Hc%changed_same_key.
    pose proof (H s Hs) as E.
    rewrite (same_key_has_key k s t Hc Hk) in E. discriminate E.
  - intros x (s & Hs & Hx)%in_flat_map.
    apply selected_is_staged in Hx. subst. now apply H.
Qed.


Lemma absent_key_untouched_witness :
  versions 2 (apply_versions staging_twice target_two) = versions 2 target_two.
Proof.
  apply (absent_key_untouched staging_twice target_two 2).
  intros s [<-|[<-|[]]]; reflexivity.
Defined.

(** X2: when no staging row differs from a current version and every
    staging row has a current version of its key in the target, the
    version-apply step leaves the target as it is. *)
Theorem unchanged_data_no_op S T :
  settled S T -> (forall s, In s S -> existsb (join_on s) T = true) ->
  apply_versions S T = T.
Proof.
  intros Hset Hall. unfold apply_versions.
  rewrite (settled_close_out S T Hset), (insert_versions_settled S T Hset).
  replace (new_rows S T) with (@nil row); [apply app_nil_r|].
  symmetry. apply filter_nil_iff. intros s Hs. now rewrite (Hall s Hs).
Qed.

Lemma unchanged_data_no_op_witness :
  apply_versions staging_same target_two = target_two.
Proof.
  apply (unchanged_data_no_op staging_same target_two).
  - intros t [<-|[<-|[]]] _ s [<-|[]]; reflexivity.
  - intros s [<-|[]]. reflexivity.
Defined.

Lemma versions_single k S s :
  snapshot S = true -> In s S -> has_key k s = true -> versions k S = [s].
Proof.
  intros Hsnap Hs Hk.
  destruct (versions_snapshot k S Hsnap) as [E|(s' & E & Hs' & _)].
  - assert (In s (versions k S)) as Hin by (now apply filter_In).
    rewrite E in Hin. destruct Hin.
  - rewrite E. f_equal.
    apply (distinct_keys_eq S s' s (proj2 (snapshot_parts S Hsnap)) Hs' Hs).
    apply (has_key_same_key k); [|assumption].
    assert (In s' (versions k S)) as Hin by (rewrite E; now left).
    now apply filter_In in Hin.
Qed.

Lemma no_current_closed k T :
  count_current k T = 0%nat ->
  forall t, In t (versions k T) -> is_current t = false.
Proof.
  intros H t [Ht Hk]%filter_In.
  pose proof (proj1 (count_current_zero k T) H t Ht) as E.
  unfold current_for in E. now rewrite Hk in E.
Qed.

(** X3: a staged row whose key has no current version in the target
    becomes the next version of that key, as it is staged; the versions
    the key already has are kept as they are.  Staging is a snapshot. *)
Theorem first_seen_key_inserted S T k s :
  snapshot S = true -> In s S -> has_key k s = true ->
  count_current k T = 0%nat ->
  versions k (apply_versions S T) = versions k T ++ [s].
Proof.
  intros Hsnap Hs Hk H0.
  pose proof (no_current_closed k T H0) as Hcl.
  rewrite (versions_apply_versions S T Hsnap k).
  rewrite (map_close_row_closed S _ Hcl), (existsb_closed _ Hcl).
  now rewrite (versions_single k S s Hsnap Hs Hk).
Qed.

Lemma first_seen_key_inserted_witness :
  versions 3 (apply_versions staging_new_key target_two)
  = versions 3 target_two
    ++ [mk_row (Some 3) (Some 300) (Some day2) (Some day2) (Some day2) None].
Proof.
  apply (first_seen_key_inserted staging_new_key target_two 3).
  - reflexivity.
  - now left.
  - reflexivity.
  - reflexivity.
Defined.

Lemma firstn_map_app {A} (f : A -> A) l n :
  firstn (List.length l) (map f l ++ n) = map f l
  /\ skipn (List.length l) (map f l ++ n) = n.
Proof.
  induction l as [|a l [IH1 IH2]]; simpl; [now split|].
  now rewrite IH1, IH2.
Qed.

Lemma close_row_same_but_end S t : same_but_end t (close_row S t).
Proof.
  unfold same_but_end, close_row. destruct (holds _); simpl; tauto.
Qed.

(** X4: the version-apply step only adds to the history.  The rows the
    target had are still there, in place, with every column but the end
    marker as before, and a row that was closed is not changed at all;
    the rows added behind them are staging rows. *)
Theorem history_append_only S T :
  Forall2 (fun t t' => same_but_end t t' /\ (is_current t = false -> t' = t))
          T (firstn (List.length T) (apply_versions S T))
  /\ forall x, In x (skipn (List.length T) (apply_versions S T)) -> In x S.
Proof.
  unfold apply_versions, insert_versions, close_out.
  destruct (firstn_map_app (close_row S) T
              (flat_map (selected (map (close_row S) T)) S)) as [E1 E2].
  rewrite E1, E2. split.
  - induction T as [|t T IH]; simpl; constructor.
    + split; [apply close_row_same_but_end | apply close_row_closed].
    + apply IH.
      * apply (proj1 (firstn_map_app (close_row S) T _)).
      * apply (proj2 (firstn_map_app (close_row S) T _)).
  - intros x (s & Hs & Hx)%in_flat_map.
    apply selected_is_staged in Hx. now subst.
Qed.

Lemma staged_null_phone_settled S T :
  (forall s, In s S -> phone_no s = None) -> settled S T.
Proof.
  intros H t _ _ s Hs. unfold changed. rewrite holds_and3, (H s Hs).
  simpl. apply andb_false_r.
Qed.

(** X5: staged rows without a phone number close nothing.
    [s.phone_no != target.phone_no] is UNKNOWN for them, so the close-out
    leaves the target as it is, and the insert adds only the staged rows
    whose key has no current version. *)
Theorem null_staged_phone_closes_nothing S T :
  (forall s, In s S -> phone_no s = None) ->
  close_out S T = T /\ apply_versions S T = T ++ new_rows S T.
Proof.
  intros H. pose proof (staged_null_phone_settled S T H) as Hset.
  unfold apply_versions. rewrite (settled_close_out S T Hset).
  split; [reflexivity | now apply insert_versions_settled].
Qed.

Lemma null_staged_phone_closes_nothing_witness :
  close_out staging_no_phone target_two = target_two.
Proof.
  apply (null_staged_phone_closes_nothing staging_no_phone target_two).
  intros s [<-|[]]. reflexivity.
Defined.

(** X6: the staging reload of step 7 does not depend on what staging held;
    from a source with its primary key and its modified timestamps set it
    leaves a snapshot (one staged row per key), in source order, every row
    starting at its modified timestamp with no end marker. *)
Theorem reload_is_snapshot src stg :
  primary_key src = true -> timestamped src = true ->
  reload_staging src stg = reload_staging src []
  /\ snapshot (reload_staging src stg) = true
  /\ map cust_id (reload_staging src stg)
     = map (fun r => Some (s_cust_id r)) src
  /\ forall s, In s (reload_staging src stg) ->
       start_date s = modified_date s /\ end_date s = None.
Proof.
  intros Hpk Hts. rewrite !reload_staging_eq.
  split; [reflexivity|]. split; [now apply snapshot_stage|].
  split; [now rewrite map_map|].
  intros s (r & <- & _)%in_map_iff. split; reflexivity.
Qed.

Lemma reload_is_snapshot_witness :
  snapshot (reload_staging src_two staging_twice) = true.
Proof.
  apply (reload_is_snapshot src_two staging_twice); reflexivity.
Defined.

Lemma insert_versions_nil S : insert_versions S [] = S.
Proof.
  unfold insert_versions. simpl. induction S as [|s S IH]; [reflexivity|].
  simpl. now rewrite IH.
Qed.

(** X7: with an empty staging table the version-apply step leaves the
    target as it is; on an empty target it inserts every staging row, in
    staging order. *)
Theorem empty_tables S T :
  apply_versions [] T = T /\ apply_versions S [] = S.
Proof.
  split.
  - unfold apply_versions, insert_versions. simpl. rewrite app_nil_r.
    unfold close_out. rewrite <- (map_id T) at 2. apply map_ext.
    intros t. now apply close_row_unchanged.
  - unfold apply_versions. apply insert_versions_nil.
Qed.


(** *** The demo on any source *)

Lemma scd2_demo_steps now :
  scd2_demo now
  = demo_steps
      (map (fun d => mk_src (fst d) (Some (snd d)) (Some now) (Some now))
           initial_data).
Proof. reflexivity. Qed.

Lemma primary_key_eq src r r' :
  primary_key src = true -> In r src -> In r' src ->
  s_cust_id r = s_cust_id r' -> r = r'.
Proof.
  induction src as [|a src IH]; simpl; [intros _ []|].
  intros [Ha Hs]%andb_prop Hr Hr' E. apply negb_true_iff in Ha.
  assert (forall x, In x src -> s_cust_id a <> s_cust_id x) as Hax.
  { intros x Hx Ex.
    assert (existsb (fun r' => s_cust_id a =? s_cust_id r') src = true);
      [|congruence].
    apply existsb_exists. exists x. split; [assumption | now apply Z.eqb_eq]. }
  destruct Hr as [<-|Hr], Hr' as [<-|Hr']; try reflexivity.
  - now destruct (Hax r' Hr').
  - symmetry in E. now destruct (Hax r Hr).
  - now apply IH.
Qed.

Lemma update_src_key src :
  map s_cust_id (update_src src) = map s_cust_id src
  /\ map s_modified_date (update_src src) = map s_modified_date src.
Proof.
  unfold update_src. rewrite !map_map.
  split; apply map_ext; intros r; now destruct (s_cust_id r =? 2).
Qed.

Lemma primary_key_keys src src' :
  map s_cust_id src' = map s_cust_id src ->
  primary_key src' = primary_key src.
Proof.
  revert src'. induction src as [|r src IH]; intros [|r' src'] E;
    try discriminate; [reflexivity|].
  simpl in *. inversion E as [[E1 E2]]. rewrite (IH src' E2). f_equal. f_equal.
  rewrite E1. clear - E2. revert src' E2.
  induction src as [|a src IH]; intros [|a' src'] E; try discriminate;
    [reflexivity|].
  simpl in *. inversion E as [[E1 E2]]. now rewrite E1, (IH src' E2).
Qed.

Lemma timestamped_dates src src' :
  map s_modified_date src' = map s_modified_date src ->
  timestamped src' = timestamped src.
Proof.
  unfold timestamped. revert src'.
  induction src as [|r src IH]; intros [|r' src'] E; try discriminate;
    [reflexivity|].
  simpl in *. inversion E as [[E1 E2]]. now rewrite E1, (IH src' E2).
Qed.

Lemma demo_steps_eq src :
  demo_steps src = apply_versions (map stage (update_src src)) (map stage src).
Proof.
  unfold demo_steps. rewrite reload_staging_eq.
  unfold load_staging. simpl app. now rewrite insert_versions_nil.
Qed.

(** X8: steps 4 to 9 of the demo on any source with its primary key and
    its modified timestamps set.  The UPDATE of step 6 changes the phone
    number of customer 2 and leaves its modified timestamp, so the only
    version the run can close is one of customer 2, and it is closed at
    its own start timestamp; at most one version per customer is current
    at the end. *)
Theorem demo_steps_closed src :
  primary_key src = true -> timestamped src = true ->
  single_current (demo_steps src)
  /\ forall t, In t (demo_steps src) -> is_current t = false ->
       cust_id t = Some 2 /\ end_date t = start_date t.
Proof.
  intros Hpk Hts. rewrite demo_steps_eq.
  destruct (update_src_key src) as [Ek Ed].
  assert (snapshot (map stage (update_src src)) = true) as Hsnap.
  { apply snapshot_stage.
    - now rewrite (primary_key_keys src _ Ek).
    - now rewrite (timestamped_dates src _ Ed). }
  destruct (snapshot_parts _ Hsnap) as [HS HD].
  rewrite apply_versions_eq by assumption. split.
  - apply (single_current_insert _ _ HD), single_current_close_out.
    rewrite <- (insert_versions_nil (map stage src)).
    rewrite (insert_versions_settled _ [] (settled_nil _)).
    apply single_current_insert; [|apply single_current_nil].
    now apply distinct_keys_stage.
  - intros t [Ht|Ht]%in_app_or Hc.
    + unfold close_out in Ht. rewrite map_map in Ht.
      apply in_map_iff in Ht as (r & <- & Hr).
      destruct (filter (changed (stage r)) (map stage (update_src src)))
        as [|s rest] eqn:F.
      { rewrite close_row_unchanged in Hc by assumption. discriminate Hc. }
      assert (is_current (stage r) = true) as Hcur by reflexivity.
      rewrite (close_row_changed _ _ s rest Hcur F).
      assert (In s (map stage (update_src src)) /\ changed (stage r) s = true)
        as [Hs Hch] by (apply filter_In; rewrite F; now left).
      apply in_map_iff in Hs as (r' & <- & Hr').
      unfold update_src in Hr'. apply in_map_iff in Hr' as (r0 & <- & Hr0).
      assert (r0 = r) as ->.
      { apply (primary_key_eq src); try assumption.
        apply changed_same_key in Hch. rewrite same_key_stage in Hch.
        apply Z.eqb_eq in Hch. now destruct (s_cust_id r0 =? 2). }
      destruct (Z.eqb_spec (s_cust_id r) 2) as [E2|N2].
      * simpl. now rewrite E2.
      * now rewrite changed_irrefl in Hch.
    + apply new_rows_incl in Ht.
      destruct (staged_in _ t HS Ht) as (_ & _ & He).
      unfold is_current in Hc. now rewrite He in Hc.
Qed.

Lemma demo_steps_closed_witness : single_current (demo_steps src_two).
Proof. apply (demo_steps_closed src_two); reflexivity. Defined.

End SCD2_More.

(** ** More on Incremental Data Load/staging.py *)

From Stdlib Require Import Permutation.

Module Staging_More.
Import Sql Sql_Props Staging Staging_Props.

(** *** The incremental selection *)

Lemma delta_cons s src stg ctl tgt :
  delta (mk_db (s :: src) stg ctl tgt)
  = map (fun _ => s) (filter (fun w => is_entity w && qualifies w s) ctl)
    ++ delta (mk_db src stg ctl tgt).
Proof. reflexivity. Qed.

Lemma filter_and_entity ctl s :
  filter (fun w => is_entity w && qualifies w s) ctl
  = filter (fun w => qualifies w s) (filter is_entity ctl).
Proof.
  induction ctl as [|w ctl IH]; [reflexivity|]. simpl.
  destruct (is_entity w); simpl; [|exact IH].
  destruct (qualifies w s); now rewrite IH.
Qed.

(** X9: the incremental load selects against the control rows of the
    entity.  With no such row it selects nothing; with exactly one it
    selects the source rows that qualify against it, once each and in
    source order. *)
Theorem delta_by_entity_rows d :
  (entity_rows d = [] -> delta d = [])
  /\ (forall w, entity_rows d = [w] ->
      delta d = filter (qualifies w) (src_jun25 d)).
Proof.
  destruct d as [src stg ctl tgt]. unfold entity_rows. simpl. split.
  - intros E. induction src as [|s src IH]; [reflexivity|].
    rewrite delta_cons, filter_and_entity, E. exact IH.
  - intros w E. induction src as [|s src IH]; [reflexivity|].
    rewrite delta_cons, filter_and_entity, E, IH. simpl.
    now destruct (qualifies w s).
Qed.

Lemma delta_by_entity_rows_witness :
  delta sample_db = filter (qualifies (mk_control entity (Some 100) (Some 100)))
                           (src_jun25 sample_db).
Proof. apply (delta_by_entity_rows sample_db). reflexivity. Defined.

Lemma in_delta_inv d r :
  In r (delta d) ->
  In r (src_jun25 d)
  /\ exists w, In w (control_table d) /\ is_entity w = true
               /\ qualifies w r = true.
Proof.
  unfold delta. intros (s & Hs & Hr)%in_flat_map.
  apply in_map_iff in Hr as (w & <- & Hw).
  apply filter_In in Hw as [Hw [He Hq]%andb_prop]. eauto.
Qed.

(** X10: when the INSERT of the incremental load and its commit succeed,
    every row of staging afterwards was in staging before or is the copy
    of a source row that qualifies against a control row of the entity:
    its created or its modified timestamp is greater than the stored
    one. *)
Theorem incremental_load_sound faults clock column_default c x :
  faults (calls c) = false -> faults (S (calls c)) = false ->
  In x (stg_jun25
          (committed
             (after (insert_into_stg faults clock column_default) c))) ->
  In x (stg_jun25 (session c))
  \/ exists r w,
       x = copy (default_at clock column_default c) r
       /\ In r (src_jun25 (session c))
       /\ In w (control_table (session c)) /\ table_name w = entity
       /\ (gtZ (created_date r) (max_created_date w) = Some true
           \/ gtZ (modified_date r) (max_modified_date w) = Some true).
Proof.
  intros H0 H1. rewrite insert_into_stg_commits by assumption. simpl.
  intros [Hx|Hx]%in_app_or; [now left|]. right.
  apply in_map_iff in Hx as (r & <- & Hr).
  apply in_delta_inv in Hr as (Hr & w & Hw & He & Hq).
  exists r, w. repeat split; try assumption.
  - now apply String.eqb_eq.
  - unfold qualifies in Hq. rewrite holds_or3 in Hq.
    apply orb_prop in Hq as [Hq|Hq]; [left|right];
      destruct (gtZ _ _) as [[|]|]; try discriminate; reflexivity.
Qed.

Lemma incremental_load_sound_witness :
  In (mk_row 9 (Some "Old") (Some "Row") (Some 50) (Some 60))
     (stg_jun25 sample_db)
  \/ exists r w,
       mk_row 9 (Some "Old") (Some "Row") (Some 50) (Some 60)
       = copy (default_at clock0 default_now sample_conn) r
       /\ In r (src_jun25 sample_db)
       /\ In w (control_table sample_db) /\ table_name w = entity
       /\ (gtZ (created_date r) (max_created_date w) = Some true
           \/ gtZ (modified_date r) (max_modified_date w) = Some true).
Proof.
  apply (incremental_load_sound no_faults clock0 default_now sample_conn).
  - reflexivity.
  - reflexivity.
  - simpl. now left.
Defined.


(** *** The watermark and the selection *)

Lemma max_agg_none vals :
  max_agg vals = None <-> forall v, In v vals -> v = None.
Proof.
  induction vals as [|[x|] vals IH]; simpl.
  - split; [intros _ v [] | reflexivity].
  - split.
    + destruct (max_agg vals); discriminate.
    + intros H. specialize (H (Some x) (or_introl eq_refl)). discriminate H.
  - rewrite IH. split.
    + intros H v [<-|Hv]; [reflexivity | now apply H].
    + intros H v Hv. apply H. now right.
Qed.

Lemma max_agg_upper vals m x :
  max_agg vals = Some m -> In (Some x) vals -> x <= m.
Proof.
  revert m. induction vals as [|[y|] vals IH]; simpl; intros m Hm Hx.
  - destruct Hx.
  - destruct (max_agg vals) as [m'|] eqn:E.
    + inversion Hm; subst. destruct Hx as [Hx|Hx].
      * inversion Hx; subst. apply Z.le_max_l.
      * specialize (IH m' eq_refl Hx). lia.
    + inversion Hm; subst. destruct Hx as [Hx|Hx].
      * inversion Hx; subst. lia.
      * apply (proj1 (max_agg_none vals)) in Hx; [discriminate Hx | exact E].
  - destruct Hx as [Hx|Hx]; [discriminate Hx | now apply IH].
Qed.

Lemma max_agg_attained vals m : max_agg vals = Some m -> In (Some m) vals.
Proof.
  revert m. induction vals as [|[y|] vals IH]; simpl; intros m Hm.
  - discriminate Hm.
  - destruct (max_agg vals) as [m'|] eqn:E.
    + inversion Hm; subst. destruct (Z.max_spec y m') as [[_ ->]|[_ ->]].
      * right. now apply IH.
      * now left.
    + inversion Hm; subst. now left.
  - right. now apply IH.
Qed.

Lemma gtZ_max_agg vals v :
  In v vals -> holds (gtZ v (max_agg vals)) = false.
Proof.
  intros Hv. destruct v as [x|]; [|reflexivity].
  destruct (max_agg vals) as [m|] eqn:E.
  - pose proof (max_agg_upper vals m x E Hv). simpl.
    destruct (Z.gtb_spec x m); [lia | reflexivity].
  - apply (proj1 (max_agg_none vals)) in Hv; [discriminate Hv | exact E].
Qed.

Lemma not_qualifies_advance tbl w t :
  is_entity w = true -> In t tbl -> qualifies (advance tbl w) t = false.
Proof.
  intros He Ht. rewrite advance_entity by assumption.
  unfold qualifies. simpl. rewrite holds_or3.
  rewrite !gtZ_max_agg by (now apply in_map). reflexivity.
Qed.

Lemma is_entity_advance tbl w : is_entity (advance tbl w) = is_entity w.
Proof.
  unfold advance. destruct (is_entity w) eqn:E; [|exact E].
  unfold is_entity in *. exact E.
Qed.

Lemma update_control_table_stg_keeps_stg faults clock c :
  faults (calls c) = false -> faults (S (calls c)) = false ->
  stg_jun25 (committed (after (update_control_table_stg faults clock) c))
  = stg_jun25 (session c).
Proof. intros H0 H1. run; reflexivity. Qed.

(** X11: an advance leaves the watermark of the entity at the highest
    timestamps of the table it reads, so that no row of that table
    qualifies against it afterwards, and each value it stores is a
    timestamp of one of the rows (or NULL when no row has one).  This
    holds for staging after [update_control_table_stg] and for the target
    after [update_control_table_tgt], when the UPDATE and its commit
    succeed. *)
Theorem watermark_covers_table faults clock c :
  faults (calls c) = false -> faults (S (calls c)) = false ->
  let d1 := committed (after (update_control_table_stg faults clock) c) in
  let d2 := committed (after (update_control_table_tgt faults clock) c) in
  (forall w t, In w (control_table d1) -> is_entity w = true ->
     In t (stg_jun25 d1) -> qualifies w t = false)
  /\ (forall w t, In w (control_table d2) -> is_entity w = true ->
      In t (tgt_jun25 d2) -> qualifies w t = false)
  /\ (forall w m, In w (control_table d2) -> is_entity w = true ->
      max_created_date w = Some m ->
      exists t, In t (tgt_jun25 d2) /\ created_date t = Some m).
Proof.
  intros H0 H1 d1 d2. subst d1 d2.
  rewrite update_control_table_stg_commits,
    update_control_table_stg_keeps_stg, update_control_table_tgt_commits
    by assumption.
  simpl. repeat split.
  - intros w t (w0 & <- & _)%in_map_iff He Ht.
    rewrite is_entity_advance in He. now apply not_qualifies_advance.
  - intros w t (w0 & <- & _)%in_map_iff He Ht.
    rewrite is_entity_advance in He. now apply not_qualifies_advance.
  - intros w m (w0 & <- & _)%in_map_iff He Hm.
    rewrite is_entity_advance in He. rewrite advance_entity in Hm by assumption.
    simpl in Hm. apply max_agg_attained, in_map_iff in Hm as (t & Et & Ht).
    eauto.
Qed.

Lemma watermark_covers_table_witness :
  qualifies (mk_control entity (Some 20) (Some 20))
            (mk_row 4 (Some "Joe") (Some "Novice") (Some 20) (Some 20))
  = false.
Proof.
  apply (proj1 (proj2 (watermark_covers_table no_faults clock0 sample_conn
                         eq_refl eq_refl))).
  - simpl. now left.
  - reflexivity.
  - simpl. now left.
Defined.

Lemma delta_null_watermark d :
  (forall w, In w (control_table d) -> is_entity w = true ->
     max_created_date w = None /\ max_modified_date w = None) ->
  delta d = [].
Proof.
  intros H. unfold delta.
  induction (src_jun25 d) as [|s src IH]; [reflexivity|]. simpl.
  replace (filter (fun w => is_entity w && qualifies w s) (control_table d))
    with (@nil control_row); [exact IH|].
  symmetry. apply filter_nil_iff. intros w Hw.
  destruct (is_entity w) eqn:He; [|reflexivity].
  destruct (H w Hw He) as [E1 E2]. unfold qualifies. rewrite E1, E2.
  now destruct (created_date s), (modified_date s).
Qed.

Lemma update_control_table_stg_runs faults clock c :
  (forall n, faults n = false) ->
  let d := simulate_change (control_from_stg (session c)) in
  after (update_control_table_stg faults clock) c
  = mk_conn d d (6 + calls c)
            (log c ++ [INFO "Control table updated after staging load."]
                   ++ [INFO "Source table updated to simulate a change."]).
Proof.
  intros H. unfold_step. cbn. rewrite !H. cbn. now rewrite <- app_assoc.
Qed.

Lemma insert_into_stg_runs faults clock column_default c :
  (forall n, faults n = false) ->
  let d := load_delta (default_at clock column_default c) (session c) in
  after (insert_into_stg faults clock column_default) c
  = mk_conn d d (3 + calls c)
      (log c ++
       [INFO
          "New or changed data inserted into staging table successfully."]).
Proof. intros H. unfold_step. cbn. rewrite !H. reflexivity. Qed.

Lemma after_seq {A B} (m : M A) (k : M B) c :
  (exists a, result m c = Return a) -> after (m ;; k) c = after k (after m c).
Proof.
  unfold after, result, bind. destruct (m c) as [[a|e] c']; simpl.
  - reflexivity.
  - intros (a & E). discriminate E.
Qed.

Lemma update_control_table_stg_returns faults clock c :
  (forall n, faults n = false) ->
  result (update_control_table_stg faults clock) c = Return tt.
Proof. intros H. unfold_step. cbn. rewrite !H. reflexivity. Qed.

(** X12: when staging is empty, [update_control_table_stg] stores NULL as
    both timestamps of the entity (the maximum over no row), and the
    incremental load that follows copies no row, whatever the source
    holds: a comparison with NULL is never TRUE.  No storage call
    fails. *)
Theorem empty_staging_stops_the_load faults clock column_default c :
  (forall n, faults n = false) -> stg_jun25 (session c) = [] ->
  let c' := after (update_control_table_stg faults clock ;;
                   insert_into_stg faults clock column_default) c in
  stg_jun25 (committed c') = []
  /\ forall w, In w (control_table (committed c')) -> is_entity w = true ->
       max_created_date w = None /\ max_modified_date w = None.
Proof.
  intros H Hempty c'. subst c'.
  rewrite after_seq
    by (exists tt; now apply update_control_table_stg_returns).
  rewrite update_control_table_stg_runs, insert_into_stg_runs by assumption.
  unfold load_delta, simulate_change, control_from_stg, with_stg, with_src,
    with_control. simpl. rewrite Hempty.
  assert (forall w, In w (map (advance []) (control_table (session c))) ->
            is_entity w = true ->
            max_created_date w = None /\ max_modified_date w = None) as Hnull.
  { intros w (w0 & <- & _)%in_map_iff He. rewrite is_entity_advance in He.
    rewrite advance_entity by assumption. now split. }
  split; [|exact Hnull].
  rewrite delta_null_watermark; [reflexivity | exact Hnull].
Qed.

Lemma empty_staging_stops_the_load_witness :
  stg_jun25
    (committed (after (update_control_table_stg no_faults clock0 ;;
                       insert_into_stg no_faults clock0 default_now)
                      fresh_conn)) = [].
Proof.
  apply (empty_staging_stops_the_load no_faults clock0 default_now fresh_conn).
  - intros n. reflexivity.
  - reflexivity.
Defined.


(** *** The steps and the main block *)

Section Flow.
Variable faults : nat -> bool.
Variable clock : nat -> Z.
Variable column_default : Z -> option Z.

Lemma step_returns msg f c :
  In (msg, f) (steps faults clock column_default) ->
  returns_or_rollback_failed (result f c).
Proof.
  intros Hin. unfold returns_or_rollback_failed.
  apply (steps_cases faults clock column_default msg f
           (fun _ f => result f c = Return tt
              \/ exists n, result f c = Raise (StorageError Rollback n)) Hin);
    run; eauto.
Qed.

Lemma seq_returns (m k : M unit) :
  (forall c, returns_or_rollback_failed (result m c)) ->
  (forall c, returns_or_rollback_failed (result k c)) ->
  forall c, returns_or_rollback_failed (result (m ;; k) c).
Proof.
  intros Hm Hk c. specialize (Hm c). unfold result, bind in *.
  destruct (m c) as [[[]|e] c']; simpl in *.
  - apply Hk.
  - exact Hm.
Qed.

Lemma main_returns c :
  returns_or_rollback_failed (result (main faults clock column_default) c).
Proof.
  unfold main.
  repeat (apply seq_returns; [intros c0; eapply step_returns; simpl; tauto|]).
  intros c0. eapply step_returns. simpl. tauto.
Qed.

(** X13: the main block, once connected.  No error of an execute or of a
    commit leaves it: it returns normally or with the error of a rollback
    that failed, whatever storage calls fail.  In both cases it has
    closed the connection, which is the last entry of its log, and the
    closing changes nothing in the database. *)
Theorem main_closes_connection c :
  let run_main := main_connected faults clock column_default in
  let steps_only := main faults clock column_default in
  returns_or_rollback_failed (result run_main c)
  /\ result run_main c = result steps_only c
  /\ log (after run_main c)
     = log (after steps_only c) ++ [INFO "Database connection closed."]
  /\ committed (after run_main c) = committed (after steps_only c).
Proof.
  intros run_main steps_only. subst run_main steps_only.
  pose proof (main_returns c) as Hm.
  unfold main_connected, try_finally, close, logging_info, ret, bind,
    after, result in *.
  destruct (main faults clock column_default c) as [r c']. simpl in *.
  repeat split. exact Hm.
Qed.

(** X14: a step that returns normally leaves no open transaction: what
    the session sees is the persistent state, whether the step committed
    its work or rolled it back. *)
Theorem no_open_transaction msg f c :
  In (msg, f) (steps faults clock column_default) ->
  result f c = Return tt ->
  session (after f c) = committed (after f c).
Proof.
  intros Hin.
  apply (steps_cases faults clock column_default msg f
           (fun _ f => result f c = Return tt ->
                       session (after f c) = committed (after f c)) Hin);
    run; intros E; try discriminate E; reflexivity.
Qed.

(** X15: which tables a step can change, whatever storage calls fail, when
    it starts with no open transaction.  The two staging loads change
    staging alone, [insert_data_to_control] and [update_control_table_tgt]
    the control table alone, [push_to_target_table] the target alone;
    [update_control_table_stg] leaves staging and the target. *)
Theorem tables_a_step_changes c :
  session c = committed c ->
  let unchanged (col : db -> list row) (f : M unit) :=
    col (committed (after f c)) = col (committed c) in
  let control_unchanged (f : M unit) :=
    control_table (committed (after f c)) = control_table (committed c) in
  let full := insert_data_to_staging faults clock column_default in
  let incr := insert_into_stg faults clock column_default in
  let init := insert_data_to_control faults clock in
  let adv_stg := update_control_table_stg faults clock in
  let push := push_to_target_table faults clock column_default in
  let adv_tgt := update_control_table_tgt faults clock in
  (unchanged src_jun25 full /\ unchanged tgt_jun25 full
   /\ control_unchanged full)
  /\ (unchanged src_jun25 incr /\ unchanged tgt_jun25 incr
      /\ control_unchanged incr)
  /\ (unchanged src_jun25 init /\ unchanged stg_jun25 init
      /\ unchanged tgt_jun25 init)
  /\ (unchanged stg_jun25 adv_stg /\ unchanged tgt_jun25 adv_stg)
  /\ (unchanged src_jun25 push /\ unchanged stg_jun25 push
      /\ control_unchanged push)
  /\ (unchanged src_jun25 adv_tgt /\ unchanged stg_jun25 adv_tgt
      /\ unchanged tgt_jun25 adv_tgt).
Proof.
  destruct c as [cm ss n lg]. simpl. intros ->.
  repeat split; run; reflexivity.
Qed.

End Flow.

Lemma no_open_transaction_witness :
  session (after (push_to_target_table (fault_at 0) clock0 default_now)
                 sample_conn)
  = committed (after (push_to_target_table (fault_at 0) clock0 default_now)
                     sample_conn).
Proof.
  apply (no_open_transaction (fault_at 0) clock0 default_now
           "Error pushing data to target table").
  - simpl. tauto.
  - reflexivity.
Defined.

Lemma tables_a_step_changes_witness :
  tgt_jun25 (committed (after (insert_into_stg (fault_at 2) clock0 default_now)
                              sample_conn))
  = tgt_jun25 (committed sample_conn).
Proof.
  apply (tables_a_step_changes (fault_at 2) clock0 default_now sample_conn).
  reflexivity.
Defined.


(** *** A run without failure *)

Section NoFailure.
Variable faults : nat -> bool.
Variable clock : nat -> Z.
Variable column_default : Z -> option Z.
Hypothesis no_failure : forall n, faults n = false.

Ltac run_clean := unfold_step; cbn; rewrite !no_failure; cbn;
                  rewrite <- ?app_assoc; reflexivity.

Lemma insert_data_to_staging_run c :
  insert_data_to_staging faults clock column_default c
  = (Return tt,
     let d := load_all (column_default (clock (calls c))) (session c) in
     mk_conn d d (3 + calls c)
       (log c ++ [INFO "Data inserted into staging table successfully."])).
Proof. run_clean. Qed.

Lemma insert_data_to_control_run c :
  insert_data_to_control faults clock c
  = (Return tt,
     let d := control_init (clock (calls c)) (session c) in
     mk_conn d d (3 + calls c)
       (log c ++ [INFO "Data inserted into control table successfully."])).
Proof. run_clean. Qed.

Lemma update_control_table_stg_run c :
  update_control_table_stg faults clock c
  = (Return tt,
     let d := simulate_change (control_from_stg (session c)) in
     mk_conn d d (6 + calls c)
       (log c ++ [INFO "Control table updated after staging load.";
                  INFO "Source table updated to simulate a change."])).
Proof. run_clean. Qed.

Lemma insert_into_stg_run c :
  insert_into_stg faults clock column_default c
  = (Return tt,
     let d := load_delta (column_default (clock (calls c))) (session c) in
     mk_conn d d (3 + calls c)
       (log c ++
        [INFO
           "New or changed data inserted into staging table successfully."])).
Proof. run_clean. Qed.

Lemma push_to_target_table_run c :
  push_to_target_table faults clock column_default c
  = (Return tt,
     let d := merge (column_default (clock (calls c))) (session c) in
     mk_conn d d (3 + calls c)
       (log c ++ [INFO "Data pushed to target table successfully."])).
Proof. run_clean. Qed.

Lemma update_control_table_tgt_run c :
  update_control_table_tgt faults clock c
  = (Return tt,
     let d := control_from_tgt (session c) in
     mk_conn d d (2 + calls c)
       (log c ++ [INFO "Control table updated after target load."])).
Proof. run_clean. Qed.

Lemma bind_run {A B} (m : M A) (k : M B) c a c' :
  m c = (Return a, c') -> (m ;; k) c = k c'.
Proof. unfold bind. now intros ->. Qed.

Lemma main_runs c :
  main faults clock column_default c
  = (Return tt,
     mk_conn (main_writes clock column_default (calls c) (session c))
             (main_writes clock column_default (calls c) (session c))
             (20 + calls c)
             (log c ++
              [INFO "Data inserted into staging table successfully.";
               INFO "Data inserted into control table successfully.";
               INFO "Control table updated after staging load.";
               INFO "Source table updated to simulate a change.";
               INFO
                 "New or changed data inserted into staging table successfully.";
               INFO "Data pushed to target table successfully.";
               INFO "Control table updated after target load."])).
Proof.
  unfold main.
  rewrite (bind_run _ _ c tt _ (insert_data_to_staging_run c)).
  rewrite (bind_run _ _ _ tt _ (insert_data_to_control_run _)).
  rewrite (bind_run _ _ _ tt _ (update_control_table_stg_run _)).
  rewrite (bind_run _ _ _ tt _ (insert_into_stg_run _)).
  rewrite (bind_run _ _ _ tt _ (push_to_target_table_run _)).
  rewrite update_control_table_tgt_run.
  cbn [calls session log]. unfold main_writes. rewrite <- !app_assoc.
  reflexivity.
Qed.

End NoFailure.


(** X16: the main flow when no storage call fails.  It returns normally
    after twenty storage calls and leaves committed what its six write
    statements make of the database, one after the other.  The target
    then has a row for every key the source had, for every key staging
    held before, and for every key it had itself; staging still holds
    what it held, followed by the full copy of the source and by the
    rows selected as changed. *)
Theorem main_without_failure faults clock column_default c :
  (forall n, faults n = false) ->
  let c' := after (main faults clock column_default) c in
  let d := session c in
  result (main faults clock column_default) c = Return tt
  /\ calls c' = (20 + calls c)%nat
  /\ committed c' = main_writes clock column_default (calls c) d
  /\ session c' = committed c'
  /\ (exists full changed,
        stg_jun25 (committed c') = stg_jun25 d ++ full ++ changed
        /\ keys full = keys (src_jun25 d)
        /\ incl (keys changed) (keys (src_jun25 d)))
  /\ (forall k, In k (keys (src_jun25 d)) \/ In k (keys (stg_jun25 d))
                \/ In k (keys (tgt_jun25 d)) ->
      In k (keys (tgt_jun25 (committed c')))).
Proof.
  intros H c' d. subst c' d. unfold after, result.
  rewrite (main_runs faults clock column_default H c).
  cbn [fst snd calls committed session]. repeat split.
  - unfold main_writes. cbn -[merge_rows delta max_agg].
    eexists. eexists. split; [rewrite <- app_assoc; reflexivity|]. split.
    + unfold keys. rewrite map_map. reflexivity.
    + intros k Hk. unfold keys in Hk. rewrite map_map in Hk. simpl in Hk.
      apply in_map_iff in Hk as (r & <- & Hr).
      apply in_delta_inv in Hr as [Hr _]. simpl in Hr.
      apply in_map_iff in Hr as (r0 & <- & Hr0).
      apply in_map_iff. exists r0. split; [|assumption].
      now destruct (col1_id r0 =? 4).
  - intros k Hk. unfold main_writes. cbn -[merge_rows delta max_agg].
    destruct Hk as [Hk|[Hk|Hk]].
    + apply in_map_iff in Hk as (r & <- & Hr).
      apply (proj2 (keys_merge_rows _ _ _)
               (copy (column_default (clock (calls c))) r)).
      apply in_or_app. left. apply in_or_app. right. now apply in_map.
    + apply in_map_iff in Hk as (r & <- & Hr).
      apply keys_merge_rows. apply in_or_app. left. apply in_or_app. now left.
    + now apply keys_merge_rows.
Qed.

Lemma main_without_failure_witness :
  In 1 (keys (tgt_jun25 (committed (after (main no_faults clock0 default_now)
                                          sample_conn)))).
Proof.
  apply (main_without_failure no_faults clock0 default_now sample_conn).
  - intros n. reflexivity.
  - left. simpl. now left.
Defined.

(** *** The merge, once more *)

Lemma upsert_keys_added dflt T s :
  exists added, keys (upsert dflt T s) = keys T ++ added
                /\ incl added [col1_id s].
Proof.
  rewrite keys_upsert. destruct (existsb _ T).
  - exists []. split; [now rewrite app_nil_r | intros x []].
  - exists [col1_id s]. split; [reflexivity | apply incl_refl].
Qed.

Lemma merge_rows_keys_added dflt S T :
  exists added, keys (merge_rows dflt S T) = keys T ++ added
                /\ incl added (keys S).
Proof.
  unfold merge_rows. revert T. induction S as [|s S IH]; intros T; simpl.
  - exists []. split; [now rewrite app_nil_r | intros x []].
  - destruct (IH (upsert dflt T s)) as (a2 & E2 & I2).
    destruct (upsert_keys_added dflt T s) as (a1 & E1 & I1).
    exists (a1 ++ a2). rewrite E2, E1, <- app_assoc. split; [reflexivity|].
    intros x [Hx|Hx]%in_app_or.
    + apply I1 in Hx as [<-|[]]. now left.
    + right. now apply I2.
Qed.

(** X17: the merge deletes no row: the target has at least as many rows
    afterwards as before, and a key is in the target afterwards exactly
    when it was there or staging carries it. *)
Theorem merge_keeps_and_adds dflt S T :
  (List.length T <= List.length (merge_rows dflt S T))%nat
  /\ forall k, In k (keys (merge_rows dflt S T))
               <-> In k (keys T) \/ In k (keys S).
Proof.
  destruct (merge_rows_keys_added dflt S T) as (added & E & Hi). split.
  - apply (f_equal (@List.length Z)) in E. unfold keys in E.
    rewrite length_app, !length_map in E. lia.
  - intros k. split.
    + rewrite E. intros [Hk|Hk]%in_app_or; [now left | right; now apply Hi].
    + destruct (keys_merge_rows dflt S T) as [Hi' Hs].
      intros [Hk|Hk]; [now apply Hi'|].
      apply in_map_iff in Hk as (s0 & <- & Hin). now apply Hs.
Qed.


Lemma find_unique k l s :
  NoDup (keys l) -> In s l -> has_id k s = true -> find (has_id k) l = Some s.
Proof.
  induction l as [|a l IH]; simpl; [intros _ []|].
  intros Hnd [<-|Hs] Hk.
  - now rewrite Hk.
  - apply NoDup_cons_iff in Hnd as [Ha Hnd].
    destruct (has_id k a) eqn:Ea; [|now apply IH].
    exfalso. apply Ha. unfold has_id in *.
    apply Z.eqb_eq in Ea, Hk. rewrite Ea, <- Hk.
    apply in_map_iff. now exists s.
Qed.

Lemma last_with_id_permutation k S S' :
  Permutation S S' -> NoDup (keys S) ->
  last_with_id k S = last_with_id k S'.
Proof.
  intros HP Hnd. unfold last_with_id.
  assert (Permutation (rev S) (rev S')) as HPr.
  { eapply Permutation_trans; [symmetry; apply Permutation_rev|].
    eapply Permutation_trans; [exact HP | apply Permutation_rev]. }
  assert (NoDup (keys (rev S'))) as Hnd'.
  { unfold keys. apply (Permutation_NoDup (l := map col1_id S)); [|exact Hnd].
    apply Permutation_map. eapply Permutation_trans; [exact HP|].
    apply Permutation_rev. }
  destruct (find (has_id k) (rev S)) as [s|] eqn:F.
  - apply find_some in F as [Hin Hk]. symmetry.
    apply find_unique; try assumption.
    now apply (Permutation_in s HPr).
  - destruct (find (has_id k) (rev S')) as [s'|] eqn:F'; [|reflexivity].
    apply find_some in F' as [Hin Hk].
    apply (Permutation_in s' (Permutation_sym HPr)) in Hin.
    now rewrite (find_none _ _ F s' Hin) in Hk.
Qed.

(** X18: when staging carries every key once, the order of its rows does
    not matter to the merge: whatever the order, the target holds the
    same row for every key afterwards. *)
Theorem merge_order_free dflt S S' T k :
  Permutation S S' -> NoDup (keys S) ->
  row_of k (merge_rows dflt S T) = row_of k (merge_rows dflt S' T).
Proof.
  intros HP Hnd. rewrite !row_of_merge_rows.
  now rewrite (last_with_id_permutation k S S' HP Hnd).
Qed.

Lemma merge_order_free_witness :
  row_of 4 (merge_rows None sample_src (tgt_jun25 sample_db))
  = row_of 4 (merge_rows None (rev sample_src) (tgt_jun25 sample_db)).
Proof.
  apply (merge_order_free None sample_src (rev sample_src)).
  - apply Permutation_rev.
  - simpl. repeat constructor; simpl; intuition discriminate.
Defined.

(** With a key twice in staging the order does matter: the last row
    wins. *)
Example merge_last_row_wins :
  option_map col2_desc (row_of 4 (merge_rows None staged_twice []))
  = Some (Some "Joshua")
  /\ option_map col2_desc (row_of 4 (merge_rows None (rev staged_twice) []))
     = Some (Some "Joe").
Proof. split; reflexivity. Qed.

(** *** Failures after the commit, and the control rows *)

(** X19: in the four steps that list a table after their commit, a
    failure of that SELECT is handled like a failure of the write: the
    step logs its error message and rolls back, after it has logged its
    success; the write is committed all the same. *)
Theorem listing_failure_after_commit faults clock column_default c :
  faults (calls c) = false -> faults (S (calls c)) = false ->
  faults (S (S (calls c))) = true -> faults (S (S (S (calls c)))) = false ->
  let dflt := default_at clock column_default c in
  committed_with_error
    "Error inserting data into staging"
    "Data inserted into staging table successfully."
    (insert_data_to_staging faults clock column_default) (load_all dflt) c
  /\ committed_with_error
       "Error inserting data into control table"
       "Data inserted into control table successfully."
       (insert_data_to_control faults clock) (control_init (clock (calls c))) c
  /\ committed_with_error
       "Error inserting new data into staging"
       "New or changed data inserted into staging table successfully."
       (insert_into_stg faults clock column_default) (load_delta dflt) c
  /\ committed_with_error
       "Error pushing data to target table"
       "Data pushed to target table successfully."
       (push_to_target_table faults clock column_default) (merge dflt) c.
Proof.
  intros H0 H1 H2 H3 dflt. subst dflt. unfold committed_with_error, default_at.
  repeat split; run; rewrite <- ?app_assoc; reflexivity.
Qed.

Lemma listing_failure_after_commit_witness :
  committed_with_error
    "Error pushing data to target table"
    "Data pushed to target table successfully."
    (push_to_target_table (fault_at 2) clock0 default_now)
    (merge (Some 1000)) sample_conn.
Proof.
  apply (listing_failure_after_commit (fault_at 2) clock0 default_now
           sample_conn); reflexivity.
Defined.

Lemma delta_other_keys k src stg ctl tgt :
  ~ In k (keys src) -> filter (has_id k) (delta (mk_db src stg ctl tgt)) = [].
Proof.
  intros Hk. apply filter_nil_iff. intros x [Hx _]%in_delta_inv.
  simpl in Hx. apply not_true_is_false. intros E. apply Hk.
  unfold has_id in E. apply Z.eqb_eq in E. subst k.
  apply in_map_iff. now exists x.
Qed.

Lemma filter_same_row k (s : row) (l : list control_row) :
  filter (has_id k) (map (fun _ => s) l)
  = if has_id k s then map (fun _ => s) l else [].
Proof.
  induction l as [|w l IH]; simpl; [now destruct (has_id k s)|].
  rewrite IH. now destruct (has_id k s).
Qed.

Lemma delta_copies d s :
  NoDup (keys (src_jun25 d)) -> In s (src_jun25 d) ->
  List.length (filter (has_id (col1_id s)) (delta d))
  = List.length (filter (fun w => qualifies w s) (entity_rows d)).
Proof.
  destruct d as [src stg ctl tgt]. unfold entity_rows. simpl.
  induction src as [|a src IH]; [intros _ []|].
  intros [Ha Hnd]%NoDup_cons_iff Hs.
  rewrite delta_cons, filter_app, length_app, filter_same_row.
  destruct Hs as [<-|Hs].
  - unfold has_id at 1. rewrite Z.eqb_refl.
    rewrite (delta_other_keys _ src stg ctl tgt Ha), filter_and_entity.
    simpl. now rewrite length_map, Nat.add_0_r.
  - replace (has_id (col1_id s) a) with false; [simpl; now apply IH|].
    symmetry. apply not_true_is_false. intros E. apply Ha.
    unfold has_id in E. apply Z.eqb_eq in E. rewrite E.
    apply in_map_iff. now exists s.
Qed.

(** X20: [insert_data_to_control] does not look for a row of the entity:
    when its INSERT and the commit succeed, the control table has its
    rows as before and one more row of the entity behind them, with the
    time of the call as both timestamps.  The incremental load selects a
    source row once for every row of the entity it qualifies against (the
    source has one row per key). *)
Theorem control_rows_accumulate faults clock c :
  faults (calls c) = false -> faults (S (calls c)) = false ->
  let d := committed (after (insert_data_to_control faults clock) c) in
  let now := clock (calls c) in
  control_table d
  = control_table (session c) ++ [mk_control entity (Some now) (Some now)]
  /\ List.length (entity_rows d) = S (List.length (entity_rows (session c)))
  /\ forall d' s, NoDup (keys (src_jun25 d')) -> In s (src_jun25 d') ->
       List.length (filter (has_id (col1_id s)) (delta d'))
       = List.length (filter (fun w => qualifies w s) (entity_rows d')).
Proof.
  intros H0 H1 d now. subst d now.
  assert (committed (after (insert_data_to_control faults clock) c)
          = control_init (clock (calls c)) (session c)) as ->
    by (run; reflexivity).
  split; [reflexivity|]. split; [|apply delta_copies].
  unfold entity_rows. simpl. rewrite filter_app, length_app. simpl. lia.
Qed.

Lemma control_rows_accumulate_witness :
  List.length (entity_rows (committed
     (after (insert_data_to_control no_faults clock0) sample_conn)))
  = 2%nat.
Proof.
  apply (control_rows_accumulate no_faults clock0 sample_conn); reflexivity.
Defined.

End Staging_More.
